(** * smac-viz: the simulation engine of [src/engine.js]

    A shallow embedding of [class VisualizerEngine] and the properties its
    specification states about it.

    Conventions of the embedding.
    - A JavaScript value is a tree: [undefined], [null], a boolean, a
      number, a string, an array or an object; a number JSON has no text for
      and an object [JSON.stringify] refuses have a constructor each.
      [JSON.parse(JSON.stringify(v))] is a partial function on these trees:
      it throws, it drops members, and it turns some values into [null].
    - Objects the engine keeps references to (the live context, the context
      and input snapshots of history entries) live in a store of cells; a
      field holding such an object holds the address of its cell, so that
      two fields naming the same object are visibly aliased. A cell holds a
      whole tree.
    - A method is a computation over the store, the fields of [this] and the
      list of deliveries made to subscribers; it ends normally with a value
      or abruptly with a JavaScript exception, and what it did before the
      exception stays done.
    - Property access [o[k]] on a plain object consults the object's own
      properties and then [Object.prototype], as the language does. The
      members of an object of a machine definition are listed as written;
      [Object.entries] yields them in the order of the language, keys that
      are array indices first.
    - Machine definitions are typed as in section 3 of the specification;
      every field may be missing, as nothing in [load] checks them.
    - The text of an action is compiled and run by an interpreter, a
      parameter of the development. An action is handed a copy of the
      context and the input object itself; it may assign into both, return
      either of them or any other value, or throw any value.
    - The second argument of [send] is a value the caller made for the call,
      or an object that is in the store already.
    - The clock is an argument: a method that records a history entry takes
      the text [new Date().toLocaleTimeString()] evaluates to.
    - A subscriber is a name; calling it records the projection it is handed
      and does nothing else.
    - Numbers are carried as integers; the engine never computes with them.
    - [console.log], [console.warn] and [console.error] are not modelled;
      of [replay], which is [reset] followed by one [send] per item with
      delays in between, the run without interleaved calls is. *)

From Stdlib Require Import List String Ascii ZArith NArith Lia Bool DecimalString
  DecimalNat DecimalPos DecimalZ Permutation.
Import ListNotations.
Local Open Scope string_scope.
Set Warnings "-register-all".

(** ** JSON values *)

Inductive json : Type :=
| JNull
| JBool (b : bool)
| JNum (n : Z)
| JStr (s : string)
| JArr (items : list json)
| JObj (members : list (string * json)).

(** ** JavaScript values

    What a variable of the program may hold, as a tree. [VCircular] stands
    for an object that [JSON.stringify] refuses with a [TypeError]: one that
    lies on a cycle of references, which no tree can show, or a [BigInt].
    [VNaN] stands for the numbers JSON has no text for ([NaN] and the two
    infinities); a function serialises as [undefined] does. *)

Inductive value : Type :=
| VUndefined
| VNull
| VBool (b : bool)
| VNum (n : Z)
| VNaN
| VStr (s : string)
| VArr (items : list value)
| VObj (members : list (string * value))
| VCircular.

Fixpoint ofJson (j : json) : value :=
  match j with
  | JNull => VNull
  | JBool b => VBool b
  | JNum n => VNum n
  | JStr s => VStr s
  | JArr items => VArr (map ofJson items)
  | JObj members => VObj (map (fun m => (fst m, ofJson (snd m))) members)
  end.

Definition isUndefined (v : value) : bool :=
  match v with
  | VUndefined => true
  | _ => false
  end.

(** ** Exceptions *)

Inductive exn : Type :=
| TypeError (message : string)
| SyntaxError (message : string).

(** [err.message] of an exception raised by the language itself. *)
Definition messageText (ex : exn) : string :=
  match ex with
  | TypeError m => m
  | SyntaxError m => m
  end.

Inductive outcome (A : Type) : Type :=
| Normal (a : A)
| Throw (e : exn).
Arguments Normal {A} a.
Arguments Throw {A} e.

(** ** [JSON.parse(JSON.stringify(v))]

    [JSON.stringify] throws on a circular structure; it writes [null] for
    [NaN] and for an [undefined] element of an array, leaves out the members
    of an object whose value is [undefined], and returns [undefined] for
    [undefined] itself, which [JSON.parse] then rejects with a
    [SyntaxError]. The messages of exceptions are those of V8 as of
    Node.js 18, the one about a circular structure cut after its first
    line. *)

Fixpoint hasCircular (v : value) : bool :=
  match v with
  | VCircular => true
  | VArr items => existsb hasCircular items
  | VObj members => existsb (fun m => hasCircular (snd m)) members
  | _ => false
  end.

(** The value read back from the text, when there is a text. *)
Fixpoint normalize (v : value) : value :=
  match v with
  | VNaN => VNull
  | VArr items =>
      VArr (map (fun x => match normalize x with
                          | VUndefined => VNull
                          | x' => x'
                          end) items)
  | VObj members =>
      VObj (filter (fun m => negb (isUndefined (snd m)))
                   (map (fun m => (fst m, normalize (snd m))) members))
  | _ => v
  end.

Definition roundTrip (v : value) : outcome value :=
  if hasCircular v then Throw (TypeError "Converting circular structure to JSON")
  else match normalize v with
       | VUndefined => Throw (SyntaxError "Unexpected token u in JSON at position 0")
       | v' => Normal v'
       end.

(** ** Machine definitions *)

Record TransitionDef : Type := mkTransition {
  to : option string;
  transLabel : option string;
  action : option string
}.

Record StateDef : Type := mkState {
  label : option string;
  on : option (list (string * TransitionDef))
}.

Record Config : Type := mkConfig {
  id : option string;
  initialState : option string;
  initialContext : option (list (string * json));   (* [config.context] *)
  states : option (list (string * StateDef))
}.

(** ** Identifiers held by the engine: [null], [undefined] or a string *)

Inductive ident : Type :=
| Null
| Undefined
| Id (s : string).

Definition ofField (f : option string) : ident :=
  match f with
  | Some s => Id s
  | None => Undefined
  end.

(** The property key a value is converted to when used in [o[k]]. *)
Definition toPropertyKey (i : ident) : string :=
  match i with
  | Null => "null"
  | Undefined => "undefined"
  | Id s => s
  end.

(** [id === x] for a string [id]. *)
Definition strictEq (s : string) (i : ident) : bool :=
  match i with
  | Id s' => String.eqb s s'
  | _ => false
  end.

(** [eventId === this.lastEventId] *)
Definition strictEqOpt (s : string) (o : option string) : bool :=
  match o with
  | Some s' => String.eqb s s'
  | None => false
  end.

(** A string is truthy unless it is empty; [undefined] is falsy. *)
Definition truthy (o : option string) : bool :=
  match o with
  | Some EmptyString => false
  | Some _ => true
  | None => false
  end.

(** [a || b] on an optional string with a string default. *)
Definition orElse (o : option string) (d : string) : string :=
  match o with
  | Some s => if truthy o then s else d
  | None => d
  end.

(** ** Property access on plain objects *)

(** The names every plain object inherits from [Object.prototype]. *)
Definition Object_prototype : list string :=
  [ "constructor"; "__defineGetter__"; "__defineSetter__"; "hasOwnProperty";
    "__lookupGetter__"; "__lookupSetter__"; "isPrototypeOf";
    "propertyIsEnumerable"; "toString"; "valueOf"; "__proto__";
    "toLocaleString" ].

Definition inherited (key : string) : bool :=
  existsb (String.eqb key) Object_prototype.

(** The value of [o[key]]: an own property, a member of [Object.prototype]
    (a function, or the prototype object itself for [__proto__]; truthy in
    every case and without data properties of its own), or [undefined]. *)
Inductive property (A : Type) : Type :=
| Own (a : A)
| Inherited (name : string)
| Absent.
Arguments Own {A} a.
Arguments Inherited {A} name.
Arguments Absent {A}.

Fixpoint own {A : Type} (o : list (string * A)) (key : string) : option A :=
  match o with
  | [] => None
  | (k, a) :: rest => if String.eqb k key then Some a else own rest key
  end.

Definition getProp {A : Type} (o : list (string * A)) (key : string) : property A :=
  match own o key with
  | Some a => Own a
  | None => if inherited key then Inherited key else Absent
  end.

Definition keys {A : Type} (o : list (string * A)) : list string := map fst o.

(** ** The order of [Object.entries]

    The members of an object of a definition are listed as its author wrote
    them. [Object.entries] yields the members whose key is an array index (a
    decimal numeral without sign or leading zero, below [2^32 - 1]) first,
    by ascending index, and then the others as they were written. *)

Definition arrayIndex (key : string) : option N :=
  match NilZero.uint_of_string key with
  | Some d =>
      let n := N.of_uint d in
      if String.eqb (NilZero.string_of_uint (N.to_uint n)) key
         && (n <? 4294967295)%N
      then Some n else None
  | None => None
  end.

Fixpoint place {A : Type} (n : N) (m : string * A)
    (sorted : list (N * (string * A))) : list (N * (string * A)) :=
  match sorted with
  | [] => [(n, m)]
  | (n', m') :: rest =>
      if (n <? n')%N then (n, m) :: sorted else (n', m') :: place n m rest
  end.

Definition indexed {A : Type} (o : list (string * A)) : list (N * (string * A)) :=
  fold_right (fun m sorted => match arrayIndex (fst m) with
                              | Some n => place n m sorted
                              | None => sorted
                              end) [] o.

Definition named {A : Type} (o : list (string * A)) : list (string * A) :=
  filter (fun m => match arrayIndex (fst m) with
                   | Some _ => false
                   | None => true
                   end) o.

Definition ownEntries {A : Type} (o : list (string * A)) : list (string * A) :=
  (map snd (indexed o) ++ named o)%list.

(** ** The store *)

Definition loc : Type := nat.
Definition store : Type := list value.

Definition deref (h : store) (l : loc) : value := nth l h VUndefined.

Definition alloc (h : store) (v : value) : loc * store := (List.length h, (h ++ [v])%list).

(** The store with the object at [l] replaced by [v]. *)
Fixpoint update (h : store) (l : loc) (v : value) : store :=
  match h, l with
  | [], _ => []
  | _ :: rest, O => v :: rest
  | x :: rest, S l' => x :: update rest l' v
  end.

(** ** Engine state *)

Record HistoryEntry : Type := mkEntry {
  timestamp : string;
  state : ident;
  event : string;
  entryContext : loc;     (* [context] of the entry *)
  entryInput : loc        (* [input] of the entry *)
}.

Definition listener : Type := nat.

Record Engine : Type := mkEngine {
  config : option Config;
  currentStateId : ident;
  previousStateId : ident;
  context : loc;
  history : list HistoryEntry;
  listeners : list listener;
  lastEventId : option string
}.

(** What [getState()] returns. [p_data] is [None] for [null]; in
    [p_availableEvents], [None] is [undefined]. [p_context] is the very
    reference held in [this.context], [p_history] the entries of
    [this.history]. *)
Record Projection : Type := mkProjection {
  p_id : ident;
  p_data : option (property StateDef);
  p_context : loc;
  p_availableEvents : option (list (string * TransitionDef));
  p_mermaid : string;
  p_history : list HistoryEntry
}.

Record World : Type := mkWorld {
  heap : store;
  this : Engine;
  delivered : list (listener * Projection)
}.

(** ** The method monad *)

Definition M (A : Type) : Type := World -> outcome A * World.

Definition ret {A : Type} (a : A) : M A := fun w => (Normal a, w).

Definition bind {A B : Type} (m : M A) (k : A -> M B) : M B :=
  fun w =>
    match m w with
    | (Normal a, w') => k a w'
    | (Throw e, w') => (Throw e, w')
    end.

Definition throw {A : Type} (e : exn) : M A := fun w => (Throw e, w).

Declare Scope js_scope.
Delimit Scope js_scope with js.
Notation "x <- m ;; k" := (bind m (fun x => k))
  (at level 100, m at next level, right associativity) : js_scope.
Notation "m ;; k" := (bind m (fun _ => k))
  (at level 100, right associativity) : js_scope.
Local Open Scope js_scope.

Definition getThis : M Engine := fun w => (Normal (this w), w).

Definition setThis (e : Engine) : M unit :=
  fun w => (Normal tt, mkWorld (heap w) e (delivered w)).

Definition setField (f : Engine -> Engine) : M unit :=
  e <- getThis ;; setThis (f e).

Definition setConfig (c : option Config) (e : Engine) : Engine :=
  mkEngine c (currentStateId e) (previousStateId e) (context e) (history e)
           (listeners e) (lastEventId e).
Definition setCurrentStateId (i : ident) (e : Engine) : Engine :=
  mkEngine (config e) i (previousStateId e) (context e) (history e)
           (listeners e) (lastEventId e).
Definition setPreviousStateId (i : ident) (e : Engine) : Engine :=
  mkEngine (config e) (currentStateId e) i (context e) (history e)
           (listeners e) (lastEventId e).
Definition setContext (l : loc) (e : Engine) : Engine :=
  mkEngine (config e) (currentStateId e) (previousStateId e) l (history e)
           (listeners e) (lastEventId e).
Definition setHistory (h : list HistoryEntry) (e : Engine) : Engine :=
  mkEngine (config e) (currentStateId e) (previousStateId e) (context e) h
           (listeners e) (lastEventId e).
Definition setListeners (ls : list listener) (e : Engine) : Engine :=
  mkEngine (config e) (currentStateId e) (previousStateId e) (context e)
           (history e) ls (lastEventId e).
Definition setLastEventId (ev : option string) (e : Engine) : Engine :=
  mkEngine (config e) (currentStateId e) (previousStateId e) (context e)
           (history e) (listeners e) ev.

(** Reading the object behind a reference. *)
Definition read (l : loc) : M value := fun w => (Normal (deref (heap w) l), w).

(** A new object holding [v]. *)
Definition newObject (v : value) : M loc :=
  fun w =>
    let (l, h) := alloc (heap w) v in
    (Normal l, mkWorld h (this w) (delivered w)).

(** An assignment into the object at [l], which becomes [v]. *)
Definition assign (l : loc) (v : value) : M unit :=
  fun w => (Normal tt, mkWorld (update (heap w) l v) (this w) (delivered w)).

(** [JSON.parse(JSON.stringify(v))]: what is read back from the text of [v],
    in a new object; or the exception. *)
Definition jsonCopy (v : value) : M loc :=
  match roundTrip v with
  | Normal v' => newObject v'
  | Throw ex => throw ex
  end.

(** [fn(p)] for a subscriber: the call is recorded. *)
Definition deliver (fn : listener) (p : Projection) : M unit :=
  fun w => (Normal tt, mkWorld (heap w) (this w) (delivered w ++ [(fn, p)])%list).

Fixpoint forEach {A : Type} (l : list A) (body : A -> M unit) : M unit :=
  match l with
  | [] => ret tt
  | a :: rest => body a ;; forEach rest body
  end.

(** [o[key]] where [o] itself may be [undefined]. *)
Definition index {A : Type} (o : option (list (string * A))) (key : string)
  : M (property A) :=
  match o with
  | Some members => ret (getProp members key)
  | None => throw (TypeError ("Cannot read properties of undefined (reading '"
                              ++ key ++ "')"))
  end.

(** [Object.entries(o)] *)
Definition entries {A : Type} (o : option (list (string * A)))
  : M (list (string * A)) :=
  match o with
  | Some members => ret (ownEntries members)
  | None => throw (TypeError "Cannot convert undefined or null to object")
  end.

(** ** Text *)

Definition nl : string := String "010"%char EmptyString.
Definition dq : string := String "034"%char EmptyString.

(** How a template literal prints the index of an edge. *)
Definition showZ (z : Z) : string := NilZero.string_of_int (Z.to_int z).

(** How a template literal prints [trans.to]. *)
Definition showField (f : option string) : string :=
  match f with
  | Some s => s
  | None => "undefined"
  end.

(** ** [generateMermaid] *)

Definition classDefs : string :=
  "flowchart LR" ++ nl
  ++ "    classDef current fill:#6366f1,stroke:#fff,stroke-width:2px,color:#fff" ++ nl
  ++ "    classDef previous fill:#10b981,stroke:#fff,stroke-width:1px,color:#fff" ++ nl ++ nl.

Definition nodeDecl (id : string) (data : StateDef) : string :=
  "    " ++ id ++ "(" ++ dq ++ orElse (label data) id ++ dq ++ ")" ++ nl.

Definition classLine (id cls : string) : string :=
  "    class " ++ id ++ " " ++ cls ++ nl.

Definition edgeLine (sourceId eventId : string) (trans : TransitionDef) : string :=
  "    " ++ sourceId ++ " -->|" ++ dq ++ orElse (transLabel trans) eventId ++ dq
  ++ "| " ++ showField (to trans) ++ nl.

Definition linkStyle (activeEdgeIndex : Z) : string :=
  "    linkStyle " ++ showZ activeEdgeIndex
  ++ " stroke:#6366f1,stroke-width:4px,color:#6366f1" ++ nl.

(** Body of the first [forEach]: one state. *)
Definition nodeStep (e : Engine) (m : string) (entry : string * StateDef) : string :=
  let (id, data) := entry in
  let m := m ++ nodeDecl id data in
  if strictEq id (currentStateId e) then m ++ classLine id "current"
  else if strictEq id (previousStateId e) then m ++ classLine id "previous"
  else m.

(** Body of the inner [forEach]: one transition. The accumulator is
    [(m, edgeIndex, activeEdgeIndex)]. *)
Definition edgeStep (e : Engine) (sourceId : string) (acc : string * Z * Z)
    (entry : string * TransitionDef) : string * Z * Z :=
  let '(m, edgeIndex, activeEdgeIndex) := acc in
  let (eventId, trans) := entry in
  let m := m ++ edgeLine sourceId eventId trans in
  let activeEdgeIndex :=
    if strictEq sourceId (previousStateId e) && strictEqOpt eventId (lastEventId e)
    then edgeIndex else activeEdgeIndex in
  (m, (edgeIndex + 1)%Z, activeEdgeIndex).

(** Body of the second outer [forEach]: the transitions of one state. *)
Definition stateEdges (e : Engine) (acc : string * Z * Z)
    (entry : string * StateDef) : string * Z * Z :=
  let (sourceId, stateData) := entry in
  match on stateData with
  | Some transitions => fold_left (edgeStep e sourceId) (ownEntries transitions) acc
  | None => acc
  end.

Definition generateMermaid : M string :=
  e <- getThis ;;
  match config e with
  | None => ret EmptyString
  | Some cfg =>
      let m := classDefs in
      sts <- entries (states cfg) ;;
      let m := fold_left (nodeStep e) sts m in
      let m := m ++ nl in
      sts' <- entries (states cfg) ;;
      let '(m, _, activeEdgeIndex) := fold_left (stateEdges e) sts' (m, 0%Z, (-1)%Z) in
      if (activeEdgeIndex =? -1)%Z then ret m
      else ret (m ++ linkStyle activeEdgeIndex)
  end.

(** ** [getState] and [notify] *)

Definition getState : M Projection :=
  e <- getThis ;;
  stateData <- match config e with
               | Some cfg =>
                   p <- index (states cfg) (toPropertyKey (currentStateId e)) ;;
                   ret (Some p)
               | None => ret None
               end ;;
  mermaid <- generateMermaid ;;
  ret (mkProjection
         (currentStateId e)
         stateData
         (context e)
         (match stateData with
          | Some (Own data) => on data
          | Some (Inherited _) => None
          | Some Absent | None => Some []
          end)
         mermaid
         (history e)).

Definition notify : M unit :=
  e <- getThis ;;
  forEach (listeners e) (fun fn => p <- getState ;; deliver fn p).

Definition subscribe (fn : listener) : M unit :=
  setField (fun e => setListeners (listeners e ++ [fn])%list e).

(** ** [recordHistory]

    [now] is what [new Date().toLocaleTimeString()] evaluates to. The two
    copies are made in the order of the object literal; when one of them
    throws, nothing is pushed. *)

Definition recordHistory (now event : string) (input : option value) : M unit :=
  let input := match input with
               | Some v => v
               | None => VObj []       (* the default [input = {}] *)
               end in
  e <- getThis ;;
  ctx <- read (context e) ;;
  c <- jsonCopy ctx ;;
  i <- jsonCopy input ;;
  setField (fun e => setHistory
                       (history e ++ [mkEntry now (currentStateId e) event c i])%list e).

(** ** [load] and [reset] *)

Definition load (now : string) (cfg : option Config) : M unit :=
  match cfg with
  | None => ret tt
  | Some c =>
      match states c with
      | None => ret tt
      | Some _ =>
          setField (setConfig (Some c)) ;;
          l <- jsonCopy (ofJson (JObj (match initialContext c with
                                       | Some members => members
                                       | None => []
                                       end))) ;;
          setField (setContext l) ;;
          setField (setCurrentStateId (ofField (initialState c))) ;;
          setField (setPreviousStateId Null) ;;
          setField (setLastEventId None) ;;
          setField (setHistory []) ;;
          recordHistory now "Initial State" None ;;
          notify
      end
  end.

Definition reset (now : string) : M unit :=
  e <- getThis ;;
  match config e with
  | Some c => load now (Some c)
  | None => ret tt
  end.

(** ** [undo] *)

Definition undo : M unit :=
  e <- getThis ;;
  if (List.length (history e) <=? 1)%nat then ret tt
  else
    let h := removelast (history e) in
    setField (setHistory h) ;;
    match nth_error h (List.length h - 1) with
    | None => throw (TypeError "Cannot read properties of undefined (reading 'state')")
    | Some restored =>
        setField (setCurrentStateId (state restored)) ;;
        ctx <- read (entryContext restored) ;;
        l <- jsonCopy ctx ;;
        setField (setContext l) ;;
        setField (setLastEventId (if String.eqb (event restored) "Initial State"
                                  then None else Some (event restored))) ;;
        prev <- (if (1 <? List.length h)%nat
                 then match nth_error h (List.length h - 2) with
                      | Some below => ret (state below)
                      | None => throw (TypeError
                          "Cannot read properties of undefined (reading 'state')")
                      end
                 else ret Null) ;;
        setField (setPreviousStateId prev) ;;
        notify
    end.

(** The constructor. *)
Definition newEngine : World :=
  mkWorld [VObj []] (mkEngine None Null Null 0 [] [] None) [].

(** ** Actions

    The action of a transition is a piece of JavaScript. [new Function]
    compiles it, or rejects it with a [SyntaxError]; the function is then
    called with a working copy of the context and with the input object
    itself, not a copy of it. The meaning of the texts is a parameter of the
    development, an [interpreter]. A call may assign into the two objects it
    is handed: [copy'] and [input'] are what it leaves in them. It ends by
    returning the final value of its binding [context], which is the working
    copy, the input object, or another value (a new object, or a primitive
    such as [undefined]), or by throwing a value, which need not be an
    [Error]. What the action reads of the outside world (the clock, a random
    number, a global) goes with [now], the time of the call. *)

Inductive returned : Type :=
| TheCopy
| TheInput
| Another (v : value).

Inductive actionResult : Type :=
| Returned (copy' input' : value) (r : returned)
| Threw (input' : value) (thrown : value).

Inductive compiled : Type :=
| Rejected (message : string)
| Compiled (actionFn : string -> value -> value -> actionResult).

Definition interpreter : Type := string -> compiled.

(** [err.message] for a thrown value: reading a property of [null] or
    [undefined] throws; an object has the message it carries (an [Error] is
    an object with a member [message]); a primitive has none. *)
Definition messageOf (thrown : value) : outcome value :=
  match thrown with
  | VUndefined =>
      Throw (TypeError "Cannot read properties of undefined (reading 'message')")
  | VNull =>
      Throw (TypeError "Cannot read properties of null (reading 'message')")
  | VObj members =>
      Normal (match own members "message" with
              | Some v => v
              | None => VUndefined
              end)
  | _ => Normal VUndefined
  end.

(** What [send] returns: [false], [true] or [{ error: err.message }]. *)
Inductive sendResult : Type :=
| SFalse
| STrue
| SError (message : value).

(** The second argument of [send]: a value that is new to the engine, such
    as an object the caller has just built, given by its content; or an
    object that is in the store already, such as one the caller got from
    [getState()]. *)
Inductive argument : Type :=
| Payload (v : value)
| Held (l : loc).

(** The default of the parameter [input = {}]: an omitted ([undefined])
    argument is replaced by a new empty object. *)
Definition defaultInput (input : option json) : json :=
  match input with
  | Some v => v
  | None => JObj []
  end.

Section Send.

Variable evalAction : interpreter.

(** The first two statements of [send]: the value of
    [this.config.states[this.currentStateId].on[eventId]]. *)
Definition lookupTransition (eventId : string) : M (property TransitionDef) :=
  e <- getThis ;;
  cfg <- match config e with
         | Some c => ret c
         | None => throw (TypeError "Cannot read properties of null (reading 'states')")
         end ;;
  currentState <- index (states cfg) (toPropertyKey (currentStateId e)) ;;
  match currentState with
  | Own data => index (on data) eventId
  | Inherited _ => index None eventId
  | Absent => throw (TypeError "Cannot read properties of undefined (reading 'on')")
  end.

(** [transition.action] and [transition.to]; a member of [Object.prototype]
    has neither. *)
Definition actionOf (transition : property TransitionDef) : option string :=
  match transition with
  | Own t => action t
  | _ => None
  end.

Definition toOf (transition : property TransitionDef) : option string :=
  match transition with
  | Own t => to t
  | _ => None
  end.

(** The text to run, when [transition.action] is truthy. *)
Definition runnable (transition : property TransitionDef) : option string :=
  if truthy (actionOf transition) then actionOf transition else None.

(** The parameter [input = {}]: an argument that is [undefined] is replaced
    by a new empty object. *)
Definition payloadOf (v : value) : value :=
  if isUndefined v then VObj [] else v.

Definition resolve (arg : argument) : M argument :=
  match arg with
  | Payload v => ret (Payload (payloadOf v))
  | Held l => v <- read l ;; ret (if isUndefined v then Payload (VObj []) else arg)
  end.

(** The content of the input object. *)
Definition given (arg : argument) : M value :=
  match arg with
  | Payload v => ret v
  | Held l => read l
  end.

(** What the action did to the input object. An object of the caller's that
    the engine has no reference to is not part of the store. *)
Definition leave (arg : argument) (input' : value) : M unit :=
  match arg with
  | Payload _ => ret tt
  | Held l => assign l input'
  end.

(** The object the action returned, which [send] stores in [this.context]
    as it is. *)
Definition returnedObject (arg : argument) (copy' input' : value) (r : returned)
  : M loc :=
  match r with
  | TheCopy => newObject copy'
  | TheInput =>
      match arg with
      | Payload _ => newObject input'
      | Held l => ret l
      end
  | Another v => newObject v
  end.

(** The statements of [send] after the action: "Move to next state".
    [input] is the content of the input object at this point. *)
Definition move (now eventId : string) (input : value)
    (transition : property TransitionDef) : M sendResult :=
  setField (fun e => setPreviousStateId (currentStateId e) e) ;;
  setField (setCurrentStateId (ofField (toOf transition))) ;;
  setField (setLastEventId (Some eventId)) ;;
  recordHistory now eventId (Some input) ;;
  notify ;;
  ret STrue.

(** [send(eventId, input)] for any argument. Within the [try] block come, in
    this order, the compilation of the text, the copy of the context and the
    call; whatever is thrown there is caught and its [message] is read. *)
Definition sendWith (now eventId : string) (arg : argument) : M sendResult :=
  transition <- lookupTransition eventId ;;
  match transition with
  | Absent => ret SFalse
  | _ =>
      arg <- resolve arg ;;
      input <- given arg ;;
      match runnable transition with
      | Some code =>
          match evalAction code with
          | Rejected message => ret (SError (VStr message))
          | Compiled actionFn =>
              e <- getThis ;;
              ctx <- read (context e) ;;
              match roundTrip ctx with
              | Throw ex => ret (SError (VStr (messageText ex)))
              | Normal copy =>
                  match actionFn now copy input with
                  | Returned copy' input' r =>
                      leave arg input' ;;
                      l <- returnedObject arg copy' input' r ;;
                      setField (setContext l) ;;
                      move now eventId input' transition
                  | Threw input' thrown =>
                      leave arg input' ;;
                      match messageOf thrown with
                      | Normal message => ret (SError message)
                      | Throw ex => throw ex
                      end
                  end
              end
          end
      | None => move now eventId input transition
      end
  end.

(** [send] called with a JSON value of the caller's own, or with nothing. *)
Definition send (now eventId : string) (input : option json) : M sendResult :=
  sendWith now eventId (Payload (ofJson (defaultInput input))).

End Send.

(** ** [replay]

    [replay(sequence, delay)] is asynchronous: it calls [reset], then waits
    [delay] before each [send]. What is embedded is a replay that runs to
    its end with no other call on the engine in between (the case the
    specification allows); the promise it returns is rejected when a [send]
    throws, and the loop stops there. Each item comes with the time read
    when its history entry is recorded; [now] is the time read by [reset]. *)

Record ReplayItem : Type := mkItem {
  itemNow : string;
  itemEvent : string;              (* [item.event] *)
  itemInput : option json          (* [item.input] *)
}.

Section Replay.

Variable evalAction : interpreter.

Fixpoint replayLoop (sequence : list ReplayItem) : M unit :=
  match sequence with
  | [] => ret tt
  | item :: rest =>
      send evalAction (itemNow item) (itemEvent item) (itemInput item) ;;
      replayLoop rest
  end.

Definition replay (now : string) (sequence : list ReplayItem) : M unit :=
  reset now ;;
  replayLoop sequence.

End Replay.

(** ** A sample machine: the coffee machine of the README *)

Definition coffeeMachine : Config :=
  mkConfig (Some "coffee-machine") (Some "idle")
    (Some [("water", JNum 100)])
    (Some [ ("idle", mkState (Some "Ready")
               (Some [("BREW", mkTransition (Some "brewing") None
                                 (Some "context.water -= 10"))]));
            ("brewing", mkState None
               (Some [("FINISH", mkTransition (Some "idle") None None)])) ]).

(** [o[key] = v] on the members of an object. *)
Fixpoint setMember (key : string) (v : value) (members : list (string * value))
  : list (string * value) :=
  match members with
  | [] => [(key, v)]
  | (k, x) :: rest =>
      if String.eqb k key then (k, v) :: rest else (k, x) :: setMember key v rest
  end.

(** [x - 10] (a numeral in a string aside). *)
Definition minus10 (x : option value) : value :=
  match x with
  | Some (VNum n) => VNum (n - 10)
  | Some VNull | Some (VBool false) => VNum (-10)
  | Some (VBool true) => VNum (-9)
  | _ => VNaN
  end.

Definition anError (message : string) : value := VObj [("message", VStr message)].

(** The meaning of the action texts used in the examples. *)
Definition sampleActions : interpreter :=
  fun code =>
    if String.eqb code "context.water -= 10" then
      Compiled (fun _ copy input =>
        match copy with
        | VObj members =>
            Returned (VObj (setMember "water" (minus10 (own members "water")) members))
                     input TheCopy
        | VNull =>
            Threw input
              (anError "Cannot read properties of null (reading 'water')")
        | _ => Returned copy input TheCopy
        end)
    else if String.eqb code "throw new Error('boom')" then
      Compiled (fun _ _ input => Threw input (anError "boom"))
    else if String.eqb code "throw 'boom'" then
      Compiled (fun _ _ input => Threw input (VStr "boom"))
    else if String.eqb code "throw null" then
      Compiled (fun _ _ input => Threw input VNull)
    else if String.eqb code "context = undefined" then
      Compiled (fun _ copy input => Returned copy input (Another VUndefined))
    else if String.eqb code "context = input" then
      Compiled (fun _ copy input => Returned copy input TheInput)
    else if String.eqb code "input.seen = true" then
      Compiled (fun _ copy input =>
        match input with
        | VObj members =>
            Returned copy (VObj (setMember "seen" (VBool true) members)) TheCopy
        | _ => Returned copy input TheCopy
        end)
    else if String.eqb code "input.seen = true; throw new Error('boom')" then
      Compiled (fun _ _ input =>
        match input with
        | VObj members =>
            Threw (VObj (setMember "seen" (VBool true) members)) (anError "boom")
        | _ => Threw input (anError "boom")
        end)
    else if String.eqb code "input.self = input" then
      Compiled (fun _ copy input => Returned copy VCircular TheCopy)
    else Rejected "Unexpected identifier".

Definition run {A : Type} (m : M A) (w : World) : World := snd (m w).
Definition result {A : Type} (m : M A) (w : World) : outcome A := fst (m w).

(** * The vocabulary of the properties

    Sample machines and worlds, and the notions the statements below use. *)

(** A JSON value is a JavaScript value. *)
Coercion ofJson : json >-> value.

(** ** Reading methods *)

(** The diagram and the projection as functions of the fields of [this]. *)
Definition mermaidOf (e : Engine) : outcome string :=
  result generateMermaid (mkWorld [] e []).

Definition projectionOf (e : Engine) : outcome Projection :=
  result getState (mkWorld [] e []).

(** The engine holds a definition that passed the check of [load], or none. *)
Definition wellLoaded (e : Engine) : Prop :=
  match config e with
  | Some c => states c <> None
  | None => True
  end.

(** ** Worlds after [send] *)

(** The world in which the fields have moved along [tr] and nothing is
    recorded yet, the live context being the object at [ctx] of store [h]. *)
Definition halfMoved (w : World) (h : store) (ctx : loc) (eventId : string)
    (tr : property TransitionDef) : World :=
  mkWorld h
    (mkEngine (config (this w)) (ofField (toOf tr)) (currentStateId (this w)) ctx
       (history (this w)) (listeners (this w)) (Some eventId))
    (delivered w).

(** The world a successful [send] leaves behind: [c] and [i] are the copies
    of the context and of the input that the new entry holds. *)
Definition afterMove (w : World) (h : store) (ctx : loc)
    (now eventId : string) (c i : value) (tr : property TransitionDef)
    (ps : list (listener * Projection)) : World :=
  mkWorld
    ((h ++ [c]) ++ [i])%list
    (mkEngine (config (this w)) (ofField (toOf tr)) (currentStateId (this w)) ctx
       (history (this w)
          ++ [mkEntry now (ofField (toOf tr)) eventId (List.length h)
                (List.length (h ++ [c])%list)])%list
       (listeners (this w)) (Some eventId))
    (delivered w ++ ps)%list.

(** The content of the object an action returned. *)
Definition contentOf (r : returned) (copy' input' : value) : value :=
  match r with
  | TheCopy => copy'
  | TheInput => input'
  | Another v => v
  end.

(** The world in which a new object holding [v] has become the live
    context. *)
Definition installed (w : World) (v : value) : World :=
  mkWorld (heap w ++ [v])%list (setContext (List.length (heap w)) (this w))
          (delivered w).

(** The context and the input the engine is about to record when [send]
    has found [tr], the live context holding [live] and the input object
    [input]: those the action leaves, when there is one and it returns. *)
Definition prospect (evalAction : interpreter) (now : string)
    (tr : property TransitionDef) (live input : value) : option (value * value) :=
  match runnable tr with
  | Some code =>
      match evalAction code with
      | Compiled actionFn =>
          match roundTrip live with
          | Normal copy =>
              match actionFn now copy input with
              | Returned copy' input' r => Some (contentOf r copy' input', input')
              | Threw _ _ => None
              end
          | Throw _ => None
          end
      | Rejected _ => None
      end
  | None => Some (live, input)
  end.

(** The world at the time [send] moves, with the content of the input
    object: the world as it is when the transition has no action, and
    otherwise the world with the object the action returned as live
    context. *)
Definition atMove (evalAction : interpreter) (now : string)
    (tr : property TransitionDef) (input : value) (w : World)
  : option (World * value) :=
  match prospect evalAction now tr (deref (heap w) (context (this w))) input with
  | Some (live', input') =>
      Some (match runnable tr with
            | Some _ => installed w live'
            | None => w
            end, input')
  | None => None
  end.

(** The ways of [send] with a payload: nothing changes and the answer is
    not [true]; the fields move and the copy of the context throws; they
    move and the copy of the input throws; they move, the entry is recorded
    and the subscribers are called. *)
Inductive sendShape (evalAction : interpreter) (now eventId : string)
    (input : value) (w : World) : outcome sendResult -> World -> Prop :=
| shape_same (r : outcome sendResult) :
    r <> Normal STrue ->
    sendShape evalAction now eventId input w r w
| shape_context (tr : property TransitionDef) (w0 : World) (input' : value)
    (ex : exn) :
    result (lookupTransition eventId) w = Normal tr ->
    tr <> Absent ->
    atMove evalAction now tr input w = Some (w0, input') ->
    roundTrip (deref (heap w0) (context (this w0))) = Throw ex ->
    sendShape evalAction now eventId input w (Throw ex)
      (halfMoved w0 (heap w0) (context (this w0)) eventId tr)
| shape_input (tr : property TransitionDef) (w0 : World) (input' c : value)
    (ex : exn) :
    result (lookupTransition eventId) w = Normal tr ->
    tr <> Absent ->
    atMove evalAction now tr input w = Some (w0, input') ->
    roundTrip (deref (heap w0) (context (this w0))) = Normal c ->
    roundTrip input' = Throw ex ->
    sendShape evalAction now eventId input w (Throw ex)
      (halfMoved w0 (heap w0 ++ [c])%list (context (this w0)) eventId tr)
| shape_moved (tr : property TransitionDef) (w0 : World) (input' c i : value)
    (ps : list (listener * Projection)) :
    result (lookupTransition eventId) w = Normal tr ->
    tr <> Absent ->
    atMove evalAction now tr input w = Some (w0, input') ->
    roundTrip (deref (heap w0) (context (this w0))) = Normal c ->
    roundTrip input' = Normal i ->
    sendShape evalAction now eventId input w (Normal STrue)
      (afterMove w0 (heap w0) (context (this w0)) now eventId c i tr ps).

(** ** Sample machines and worlds *)

(** A machine with one action, leading from [idle] to [brewing]. *)
Definition machineWith (name code : string) : Config :=
  mkConfig (Some name) (Some "idle") (Some [("water", JNum 100)])
    (Some [ ("idle", mkState None
               (Some [("BREW", mkTransition (Some "brewing") None (Some code))]));
            ("brewing", mkState None
               (Some [("FINISH", mkTransition (Some "idle") None None)])) ]).

(** A machine whose only action raises an [Error]. *)
Definition faultyMachine : Config := machineWith "faulty" "throw new Error('boom')".

(** Machines whose action throws [null], and a string. *)
Definition throwNullMachine : Config := machineWith "throw-null" "throw null".
Definition throwTextMachine : Config := machineWith "throw-text" "throw 'boom'".

(** A machine whose action leaves [undefined] in [context]. *)
Definition forgetfulMachine : Config := machineWith "forgetful" "context = undefined".

(** A machine whose action returns the input object. *)
Definition adoptingMachine : Config := machineWith "adopting" "context = input".

(** A machine whose action writes into the input object. *)
Definition markingMachine : Config := machineWith "marking" "input.seen = true".

(** A machine whose action writes into the input object and fails. *)
Definition spoilingMachine : Config :=
  machineWith "spoiling" "input.seen = true; throw new Error('boom')".

(** A machine whose action ties the input object to itself. *)
Definition knottingMachine : Config := machineWith "knotting" "input.self = input".

(** The coffee machine without water in its initial context. *)
Definition dryMachine : Config :=
  mkConfig (Some "dry") (Some "idle") None
    (Some [ ("idle", mkState None
               (Some [("BREW", mkTransition (Some "brewing") None
                                 (Some "context.water -= 10"))]));
            ("brewing", mkState None
               (Some [("FINISH", mkTransition (Some "idle") None None)])) ]).

(** A machine with an event named like the marker of the first entry. *)
Definition sentinelMachine : Config :=
  mkConfig (Some "sentinel") (Some "a") None
    (Some [ ("a", mkState None
               (Some [("Initial State", mkTransition (Some "b") None None)]));
            ("b", mkState None
               (Some [("NEXT", mkTransition (Some "a") None None)])) ]).

(** A machine whose only transition leads to a state that is not defined. *)
Definition danglingMachine : Config :=
  mkConfig (Some "dangling") (Some "a") None
    (Some [ ("a", mkState None
               (Some [("GO", mkTransition (Some "nowhere") None None)])) ]).

(** A machine with a transition from a state to itself. *)
Definition loopMachine : Config :=
  mkConfig (Some "loop") (Some "a") None
    (Some [ ("a", mkState None
               (Some [("AGAIN", mkTransition (Some "a") None None)])) ]).

(** A machine with a state whose name is a number, written after a state
    whose name is not. *)
Definition numberedMachine : Config :=
  mkConfig (Some "numbered") (Some "b") None
    (Some [ ("b", mkState None
               (Some [("X", mkTransition (Some "1") None None)]));
            ("1", mkState None
               (Some [("Y", mkTransition (Some "b") None None)])) ]).

Definition loaded (c : Config) : World :=
  run (load "10:00:00" (Some c)) (run (subscribe 1) newEngine).

Definition coffeeLoaded : World := loaded coffeeMachine.

Definition coffeeBrewing : World :=
  run (send sampleActions "10:00:01" "BREW" None) coffeeLoaded.

Definition loopTaken : World :=
  run (send sampleActions "10:00:01" "AGAIN" None) (loaded loopMachine).

(** The dry machine after [BREW]: the live context is [{ water: NaN }]. *)
Definition dryBrewing : World :=
  run (send sampleActions "10:00:01" "BREW" None) (loaded dryMachine).

(** The knotting machine after [BREW], which throws while recording. *)
Definition knottingBrewing : World :=
  run (send sampleActions "10:00:01" "BREW" None) (loaded knottingMachine).

(** The numbered machine after [X]. *)
Definition numberedTaken : World :=
  run (send sampleActions "10:00:01" "X" None) (loaded numberedMachine).

(** ** Worlds after [undo], reachable worlds *)

(** The state recorded beneath the restored entry, [null] if there is none. *)
Definition stateBelow (hs : list HistoryEntry) : ident :=
  match rev hs with
  | [] => Null
  | below :: _ => state below
  end.

(** The world [undo] leaves behind when the history was
    [hs ++ [restored; top]], the context of [restored] being JSON. *)
Definition afterUndo (w : World) (hs : list HistoryEntry)
    (restored : HistoryEntry) (ps : list (listener * Projection)) : World :=
  mkWorld
    (heap w ++ [deref (heap w) (entryContext restored)])%list
    (mkEngine (config (this w)) (state restored) (stateBelow hs)
       (List.length (heap w)) (hs ++ [restored])%list (listeners (this w))
       (if String.eqb (event restored) "Initial State" then None
        else Some (event restored)))
    (delivered w ++ ps)%list.

(** The objects the engine refers to: the live context, then the context and
    the input of every history entry. *)
Definition entryObjects (en : HistoryEntry) : list loc :=
  [entryContext en; entryInput en].

Definition snapshots (w : World) : list loc :=
  flat_map entryObjects (history (this w)).

Definition objects (w : World) : list loc :=
  context (this w) :: snapshots w.

(** ** Assignments made by callers *)

(** What a caller does to the world when it assigns into an object it holds
    a reference to, such as [snapshot.context.water = 0]: the object at [l]
    becomes [v]; the fields of the engine are not touched. *)
Definition mutate (l : loc) (v : value) (w : World) : World :=
  mkWorld (update (heap w) l v) (this w) (delivered w).

Section Worlds.

Variable evalAction : interpreter.

(** The worlds a program gets to by calling the methods of a new engine
    and by assigning into the objects it holds. The argument of [send] is a
    value of the caller's own, whatever it is, or an object of the store;
    the one thing callers are taken not to do is to assign into the context
    and input objects of the history entries, or to hand one of these back
    as the input of [send]. *)
Inductive reachable : World -> Prop :=
| reach_new : reachable newEngine
| reach_subscribe (w : World) (fn : listener) :
    reachable w -> reachable (run (subscribe fn) w)
| reach_load (w : World) (now : string) (cfg : option Config) :
    reachable w -> reachable (run (load now cfg) w)
| reach_reset (w : World) (now : string) :
    reachable w -> reachable (run (reset now) w)
| reach_send (w : World) (now eventId : string) (input : value) :
    reachable w ->
    reachable (run (sendWith evalAction now eventId (Payload input)) w)
| reach_send_held (w : World) (now eventId : string) (l : loc) :
    reachable w -> ~ In l (snapshots w) ->
    reachable (run (sendWith evalAction now eventId (Held l)) w)
| reach_undo (w : World) :
    reachable w -> reachable (run undo w)
| reach_getState (w : World) :
    reachable w -> reachable (run getState w)
| reach_generateMermaid (w : World) :
    reachable w -> reachable (run generateMermaid w)
| reach_assign (w : World) (l : loc) (v : value) :
    reachable w -> ~ In l (snapshots w) -> reachable (mutate l v w).

End Worlds.

Definition contextOf (c : Config) : json :=
  JObj (match initialContext c with
        | Some members => members
        | None => []
        end).

(** A JavaScript value that is a JSON value: [JSON.parse(JSON.stringify(v))]
    gives it back as it is. *)
Fixpoint isJson (v : value) : bool :=
  match v with
  | VUndefined | VNaN | VCircular => false
  | VArr items => forallb isJson items
  | VObj members => forallb (fun m => isJson (snd m)) members
  | _ => true
  end.

(** What holds of the objects in every reachable world: they exist, no two
    fields name the same one, the snapshots hold JSON values, and the first
    entry is the one [load] wrote. *)
Record consistent (w : World) : Prop := mkConsistent {
  cons_loaded : wellLoaded (this w);
  cons_bound : Forall (fun l => l < List.length (heap w)) (objects w);
  cons_nodup : NoDup (objects w);
  cons_json : Forall (fun l => isJson (deref (heap w) l) = true) (snapshots w);
  cons_rooted :
    forall c, config (this w) = Some c ->
      exists first rest,
        history (this w) = first :: rest
        /\ event first = "Initial State"
        /\ state first = ofField (initialState c)
        /\ deref (heap w) (entryContext first) = contextOf c
        /\ deref (heap w) (entryInput first) = JObj []
}.

(** The fields of the engine agree with the tail of its history: the state
    and the event are those the tail records, the context of the tail is
    what [JSON.parse(JSON.stringify(...))] makes of the live context, and
    the previous state is the one recorded beneath. *)
Definition aligned (w : World) : Prop :=
  exists hs en,
    history (this w) = (hs ++ [en])%list
    /\ state en = currentStateId (this w)
    /\ roundTrip (deref (heap w) (context (this w)))
       = Normal (deref (heap w) (entryContext en))
    /\ previousStateId (this w) = stateBelow hs
    /\ (lastEventId (this w) = Some (event en)
        \/ (lastEventId (this w) = None /\ event en = "Initial State")).

(** ** Statements of the specification that do not hold as they stand *)

(** A context handed out by [getState()] is a copy: whatever a caller assigns
    into it, the context of the engine stays as it is. *)
Definition projectionContextIsCopy (evalAction : interpreter) : Prop :=
  forall (w : World) (p : Projection) (v : value),
    reachable evalAction w ->
    result getState w = Normal p ->
    deref (heap (mutate (p_context p) v w)) (context (this w))
    = deref (heap w) (context (this w)).



(** [undo] after a [send] that answered [true] brings back the context as
    it was before the [send]. *)
Definition undoRestoresContext (evalAction : interpreter) : Prop :=
  forall (now eventId : string) (input : option json) (w w1 : World),
    reachable evalAction w ->
    send evalAction now eventId input w = (Normal STrue, w1) ->
    deref (heap (run undo w1)) (context (this (run undo w1)))
    = deref (heap w) (context (this w)).


(** ** The diagram, as the specification describes it

    The text is spelled out here character by character, independently of
    the functions that build it in the embedding. *)

Definition lineBreak : string := String (ascii_of_nat 10) EmptyString.
Definition quote : string := String (ascii_of_nat 34) EmptyString.

Definition joinAll (l : list string) : string :=
  fold_right String.append EmptyString l.

(** The label shown: the one given unless it is missing or empty. *)
Definition shown (given : option string) (name : string) : string :=
  match given with
  | Some (String c s) => String c s
  | _ => name
  end.

(** An edge is a source, an event and the transition. The edges are
    enumerated state by state and, within a state, event by event, both in
    the order of [Object.entries]. *)
Definition edge : Type := string * string * TransitionDef.

Definition edgesFrom (sourceId : string) (data : StateDef) : list edge :=
  match on data with
  | Some transitions =>
      map (fun et => (sourceId, fst et, snd et)) (ownEntries transitions)
  | None => []
  end.

Definition edgesOf (sts : list (string * StateDef)) : list edge :=
  flat_map (fun sd => edgesFrom (fst sd) (snd sd)) (ownEntries sts).

(** The edges in the order in which the definition was written. *)
Definition edgesAsWritten (sts : list (string * StateDef)) : list edge :=
  flat_map (fun sd => match on (snd sd) with
                      | Some transitions =>
                          map (fun et => (fst sd, fst et, snd et)) transitions
                      | None => []
                      end) sts.

Definition edgeText (x : edge) : string :=
  "    " ++ fst (fst x) ++ " -->|" ++ quote
  ++ shown (transLabel (snd x)) (snd (fst x)) ++ quote ++ "| "
  ++ match to (snd x) with
     | Some target => target
     | None => "undefined"
     end
  ++ lineBreak.

(** The edge last traversed: its source is [previousStateId] and its event
    is [lastEventId]. *)
Definition isActive (e : Engine) (x : edge) : bool :=
  strictEq (fst (fst x)) (previousStateId e)
  && strictEqOpt (snd (fst x)) (lastEventId e).

(** The class a node is given, if any. *)
Definition emphasis (e : Engine) (id : string) : option string :=
  if strictEq id (currentStateId e) then Some "current"
  else if strictEq id (previousStateId e) then Some "previous"
  else None.

Definition nodeText (e : Engine) (sd : string * StateDef) : string :=
  "    " ++ fst sd ++ "(" ++ quote ++ shown (label (snd sd)) (fst sd) ++ quote
  ++ ")" ++ lineBreak
  ++ match emphasis e (fst sd) with
     | Some cls => "    class " ++ fst sd ++ " " ++ cls ++ lineBreak
     | None => EmptyString
     end.

Definition diagramHeader : string :=
  "flowchart LR" ++ lineBreak
  ++ "    classDef current fill:#6366f1,stroke:#fff,stroke-width:2px,color:#fff"
  ++ lineBreak
  ++ "    classDef previous fill:#10b981,stroke:#fff,stroke-width:1px,color:#fff"
  ++ lineBreak ++ lineBreak.

(** Everything but the style directive: the class definitions, the nodes, a
    blank line, the edges. *)
Definition diagramBody (e : Engine) (sts : list (string * StateDef)) : string :=
  (diagramHeader ++ joinAll (map (nodeText e) (ownEntries sts))) ++ lineBreak
  ++ joinAll (map edgeText (edgesOf sts)).

(** The decimal numeral of a number, and the number a numeral denotes. *)
Definition numeral (k : nat) : string := NilZero.string_of_int (Z.to_int (Z.of_nat k)).

Definition numberOf (s : string) : option Z :=
  option_map Z.of_int (NilZero.int_of_string s).

(** The style directive for the edge of index [k]. *)
Definition styleDirective (k : nat) : string :=
  "    linkStyle " ++ numeral k ++ " stroke:#6366f1,stroke-width:4px,color:#6366f1"
  ++ lineBreak.

(** What the loops of [generateMermaid] leave in [activeEdgeIndex], the
    edges being numbered from [i]. *)
Fixpoint scan (e : Engine) (edges : list edge) (i a : Z) : Z :=
  match edges with
  | [] => a
  | x :: rest => scan e rest (i + 1)%Z (if isActive e x then i else a)
  end.

(** An object has each key once: the states of a definition, and the
    events of each state. *)
Definition uniqueKeys (sts : list (string * StateDef)) : Prop :=
  NoDup (keys sts)
  /\ Forall (fun sd => match on (snd sd) with
                       | Some transitions => NoDup (keys transitions)
                       | None => True
                       end) sts.

(** No state and no event is named by an array index. *)
Definition writtenOrder (sts : list (string * StateDef)) : Prop :=
  Forall (fun sd =>
            arrayIndex (fst sd) = None
            /\ match on (snd sd) with
               | Some transitions =>
                   Forall (fun et => arrayIndex (fst et) = None) transitions
               | None => True
               end) sts.

(** The source and the event of an edge. *)
Definition edgeKey (x : edge) : string * string := fst x.


(** The directive carries the index that the highlighted edge has among the
    edges as the definition lists them. *)
Definition highlightCountsAsWritten : Prop :=
  forall (w : World) (c : Config) (sts : list (string * StateDef))
         (k : nat) (x : edge),
    config (this w) = Some c ->
    states c = Some sts ->
    uniqueKeys sts ->
    nth_error (edgesAsWritten sts) k = Some x ->
    isActive (this w) x = true ->
    result generateMermaid w
    = Normal (diagramBody (this w) sts ++ styleDirective k).

(** ** What a caller can observe of the engine

    The identifiers, the content of the live context and, for every history
    entry, what it records with the content of its two snapshots: the
    engine with the addresses of its objects forgotten. *)

Record ObsEntry : Type := mkObsEntry {
  o_timestamp : string;
  o_state : ident;
  o_event : string;
  o_entryContext : value;
  o_entryInput : value
}.

Record Obs : Type := mkObs {
  o_current : ident;
  o_previous : ident;
  o_lastEvent : option string;
  o_context : value;
  o_history : list ObsEntry
}.

Definition observeEntry (h : store) (en : HistoryEntry) : ObsEntry :=
  mkObsEntry (timestamp en) (state en) (event en)
             (deref h (entryContext en)) (deref h (entryInput en)).

Definition observe (w : World) : Obs :=
  mkObs (currentStateId (this w)) (previousStateId (this w))
        (lastEventId (this w)) (deref (heap w) (context (this w)))
        (map (observeEntry (heap w)) (history (this w))).

(** What is observed after [load] of [c]. *)
Definition initialObs (c : Config) (now : string) : Obs :=
  mkObs (ofField (initialState c)) Null None (contextOf c)
        [mkObsEntry now (ofField (initialState c)) "Initial State"
                    (contextOf c) (JObj [])].

(** The time recorded by the first entry. *)
Definition startOf (h : list ObsEntry) : string :=
  match h with
  | [] => EmptyString
  | en :: _ => o_timestamp en
  end.

(** [undo] called [n] times. *)
Fixpoint undoTimes (n : nat) (w : World) : World :=
  match n with
  | O => w
  | S k => undoTimes k (run undo w)
  end.


(** ** Induction on values

    The induction principles for values and JSON values, with the property
    at hand for every element of an array and every member of an object. *)

Section ValueInduction.

Variable P : value -> Prop.
Hypothesis Hundefined : P VUndefined.
Hypothesis Hnull : P VNull.
Hypothesis Hbool : forall b, P (VBool b).
Hypothesis Hnum : forall n, P (VNum n).
Hypothesis Hnan : P VNaN.
Hypothesis Hstr : forall s, P (VStr s).
Hypothesis Harr : forall items, Forall P items -> P (VArr items).
Hypothesis Hobj :
  forall members, Forall (fun m => P (snd m)) members -> P (VObj members).
Hypothesis Hcircular : P VCircular.

Fixpoint value_nested_ind (v : value) : P v :=
  match v with
  | VUndefined => Hundefined
  | VNull => Hnull
  | VBool b => Hbool b
  | VNum n => Hnum n
  | VNaN => Hnan
  | VStr s => Hstr s
  | VArr items =>
      Harr items
        ((fix go (l : list value) : Forall P l :=
            match l with
            | [] => Forall_nil _
            | x :: r => Forall_cons x (value_nested_ind x) (go r)
            end) items)
  | VObj members =>
      Hobj members
        ((fix go (l : list (string * value)) : Forall (fun m => P (snd m)) l :=
            match l with
            | [] => Forall_nil _
            | (k, x) :: r => Forall_cons (k, x) (value_nested_ind x) (go r)
            end) members)
  | VCircular => Hcircular
  end.

End ValueInduction.

Section JsonInduction.

Variable P : json -> Prop.
Hypothesis Hnull : P JNull.
Hypothesis Hbool : forall b, P (JBool b).
Hypothesis Hnum : forall n, P (JNum n).
Hypothesis Hstr : forall s, P (JStr s).
Hypothesis Harr : forall items, Forall P items -> P (JArr items).
Hypothesis Hobj :
  forall members, Forall (fun m => P (snd m)) members -> P (JObj members).

Fixpoint json_nested_ind (j : json) : P j :=
  match j with
  | JNull => Hnull
  | JBool b => Hbool b
  | JNum n => Hnum n
  | JStr s => Hstr s
  | JArr items =>
      Harr items
        ((fix go (l : list json) : Forall P l :=
            match l with
            | [] => Forall_nil _
            | x :: r => Forall_cons x (json_nested_ind x) (go r)
            end) items)
  | JObj members =>
      Hobj members
        ((fix go (l : list (string * json)) : Forall (fun m => P (snd m)) l :=
            match l with
            | [] => Forall_nil _
            | (k, x) :: r => Forall_cons (k, x) (json_nested_ind x) (go r)
            end) members)
  end.

End JsonInduction.


(** * Properties *)

(** ** Values and their JSON text *)

Lemma isJson_ofJson (j : json) : isJson (ofJson j) = true.
Proof.
  induction j using json_nested_ind; cbn; try reflexivity.
  - rewrite forallb_forall. intros x Hx. apply in_map_iff in Hx.
    destruct Hx as [y [<- Hy]]. rewrite Forall_forall in H. now apply H.
  - rewrite forallb_forall. intros x Hx. apply in_map_iff in Hx.
    destruct Hx as [y [<- Hy]]. rewrite Forall_forall in H. cbn. now apply H.
Qed.

Lemma isJson_not_undefined (v : value) : isJson v = true -> isUndefined v = false.
Proof. destruct v; cbn; congruence. Qed.

Lemma normalize_undefined (v : value) :
  isUndefined (normalize v) = true -> isUndefined v = true.
Proof. destruct v; cbn; congruence. Qed.

(** A JSON value has a text, and is what is read back from it. *)
Lemma isJson_fixed (v : value) :
  isJson v = true -> hasCircular v = false /\ normalize v = v.
Proof.
  induction v using value_nested_ind; cbn; intros J; try discriminate;
    try (split; reflexivity).
  - rewrite forallb_forall in J. rewrite Forall_forall in H. split.
    + apply not_true_is_false. intros E. apply existsb_exists in E.
      destruct E as [x [Hx Cx]]. destruct (H x Hx (J x Hx)). congruence.
    + f_equal. rewrite <- (map_id items) at 2. apply map_ext_in. intros x Hx.
      destruct (H x Hx (J x Hx)) as [_ ->].
      pose proof (isJson_not_undefined x (J x Hx)). destruct x; cbn in *; congruence.
  - rewrite forallb_forall in J. rewrite Forall_forall in H. split.
    + apply not_true_is_false. intros E. apply existsb_exists in E.
      destruct E as [x [Hx Cx]]. destruct (H x Hx (J x Hx)). congruence.
    + f_equal.
      assert (E : map (fun m => (fst m, normalize (snd m))) members = members).
      { rewrite <- (map_id members) at 2. apply map_ext_in. intros [k x] Hx.
        cbn. destruct (H (k, x) Hx (J (k, x) Hx)) as [_ E]. cbn in E. now rewrite E. }
      rewrite E. apply forallb_filter_id. rewrite forallb_forall. intros x Hx.
      now rewrite (isJson_not_undefined _ (J x Hx)).
Qed.

(** What is read back from a text is a JSON value. *)
Lemma normalize_isJson (v : value) :
  hasCircular v = false -> isUndefined v = false -> isJson (normalize v) = true.
Proof.
  induction v using value_nested_ind; cbn; intros C U; try congruence.
  - rewrite forallb_forall. intros y Hy. apply in_map_iff in Hy.
    destruct Hy as [x [<- Hx]]. rewrite Forall_forall in H.
    assert (Cx : hasCircular x = false).
    { apply not_true_is_false. intros E. assert (existsb hasCircular items = true).
      { apply existsb_exists. now exists x. } congruence. }
    destruct (isUndefined x) eqn:Ux.
    + destruct x; try discriminate Ux. reflexivity.
    + pose proof (H x Hx Cx Ux) as J.
      destruct (normalize x); try discriminate; exact J.
  - rewrite forallb_forall. intros y Hy. apply filter_In in Hy.
    destruct Hy as [Hy Uy]. apply in_map_iff in Hy. destruct Hy as [[k x] [<- Hx]].
    cbn in *. rewrite Forall_forall in H.
    assert (Cx : hasCircular x = false).
    { apply not_true_is_false. intros E.
      assert (existsb (fun m => hasCircular (snd m)) members = true).
      { apply existsb_exists. now exists (k, x). } congruence. }
    destruct (isUndefined x) eqn:Ux.
    + destruct x; try discriminate Ux. cbn in Uy. discriminate Uy.
    + exact (H (k, x) Hx Cx Ux).
Qed.

Lemma roundTrip_json (v : value) : isJson v = true -> roundTrip v = Normal v.
Proof.
  intros J. unfold roundTrip. destruct (isJson_fixed v J) as [-> ->].
  pose proof (isJson_not_undefined v J). destruct v; try discriminate; reflexivity.
Qed.

Lemma roundTrip_isJson (v v' : value) : roundTrip v = Normal v' -> isJson v' = true.
Proof.
  unfold roundTrip. destruct (hasCircular v) eqn:C; [discriminate|].
  destruct (isUndefined v) eqn:U.
  - destruct v; discriminate.
  - pose proof (normalize_isJson v C U) as J.
    destruct (normalize v); intros E; try discriminate; now inversion E; subst.
Qed.

Lemma roundTrip_ofJson (j : json) : roundTrip (ofJson j) = Normal (ofJson j).
Proof. apply roundTrip_json, isJson_ofJson. Qed.

(** A copy of a copy is the copy. *)
Lemma roundTrip_idem (v v' : value) :
  roundTrip v = Normal v' -> roundTrip v' = Normal v'.
Proof. intros E. apply roundTrip_json. exact (roundTrip_isJson v v' E). Qed.

(** ** The order of [Object.entries] *)

Lemma place_perm {A : Type} (n : N) (m : string * A) (l : list (N * (string * A))) :
  Permutation (map snd (place n m l)) (m :: map snd l).
Proof.
  induction l as [|[n' m'] l IH]; cbn.
  - apply Permutation_refl.
  - destruct (n <? n')%N; cbn.
    + apply Permutation_refl.
    + eapply perm_trans; [apply perm_skip, IH | apply perm_swap].
Qed.

(** [Object.entries] yields every member once. *)
Lemma ownEntries_perm {A : Type} (o : list (string * A)) :
  Permutation (ownEntries o) o.
Proof.
  unfold ownEntries. induction o as [|a o IH]; cbn.
  - apply Permutation_refl.
  - destruct (arrayIndex (fst a)) as [n|].
    + eapply perm_trans.
      * apply Permutation_app_tail, place_perm.
      * cbn. apply perm_skip, IH.
    + apply Permutation_sym. eapply perm_trans.
      * apply perm_skip, Permutation_sym, IH.
      * apply Permutation_middle.
Qed.

Lemma ownEntries_In {A : Type} (o : list (string * A)) (x : string * A) :
  In x (ownEntries o) <-> In x o.
Proof.
  split; apply Permutation_in; [|apply Permutation_sym]; apply ownEntries_perm.
Qed.

Lemma ownEntries_keys {A : Type} (o : list (string * A)) :
  NoDup (keys o) -> NoDup (keys (ownEntries o)).
Proof.
  apply Permutation_NoDup, Permutation_map, Permutation_sym, ownEntries_perm.
Qed.

(** ** The store *)

Lemma deref_new (h rest : store) (v : value) :
  deref (h ++ v :: rest)%list (List.length h) = v.
Proof. unfold deref. apply nth_middle. Qed.

Lemma deref_old (h rest : store) (l : loc) :
  l < List.length h -> deref (h ++ rest)%list l = deref h l.
Proof. intros H. unfold deref. now apply app_nth1. Qed.

Lemma deref_update_other (h : store) (l l' : loc) (v : value) :
  l <> l' -> deref (update h l v) l' = deref h l'.
Proof.
  revert l l'. induction h as [|x h IH]; intros [|l] [|l'] N; cbn;
    try reflexivity; try congruence.
  unfold deref in IH. cbn. apply IH. congruence.
Qed.

Lemma deref_update_same (h : store) (l : loc) (v : value) :
  l < List.length h -> deref (update h l v) l = v.
Proof.
  revert l. induction h as [|x h IH]; intros [|l] B; cbn in *; try lia.
  - reflexivity.
  - unfold deref in IH. apply IH. lia.
Qed.

Lemma update_length (h : store) (l : loc) (v : value) :
  List.length (update h l v) = List.length h.
Proof.
  revert l. induction h as [|x h IH]; intros [|l]; cbn; try reflexivity.
  now rewrite IH.
Qed.

(** ** Reading methods leave the world alone *)

Lemma world_eta (w : World) : mkWorld (heap w) (this w) (delivered w) = w.
Proof. destruct w; reflexivity. Qed.

Lemma generateMermaid_run (w : World) :
  generateMermaid w = (mermaidOf (this w), w).
Proof.
  unfold mermaidOf, result, generateMermaid, bind, getThis; simpl.
  destruct (config (this w)) as [c|]; [|reflexivity].
  destruct (states c) as [sts|]; simpl; [|reflexivity].
  destruct (fold_left _ (ownEntries sts) _) as [[m ei] ai].
  destruct (ai =? -1)%Z; reflexivity.
Qed.

Lemma getState_run (w : World) :
  getState w = (projectionOf (this w), w).
Proof.
  unfold projectionOf, result, getState, bind, getThis.
  cbn [this].
  destruct (config (this w)) as [c|]; [destruct (states c) as [sts|]|];
    unfold index, ret, throw; try reflexivity;
    rewrite generateMermaid_run;
    rewrite (generateMermaid_run (mkWorld [] (this w) [])); cbn [this fst];
    destruct (mermaidOf (this w)); reflexivity.
Qed.

Lemma mermaidOf_wellLoaded (e : Engine) :
  wellLoaded e -> exists m, mermaidOf e = Normal m.
Proof.
  unfold wellLoaded, mermaidOf, result, generateMermaid, bind, getThis; simpl.
  destruct (config e) as [c|]; [|eexists; reflexivity].
  destruct (states c) as [sts|]; [intros _|intros H; now elim H]; simpl.
  destruct (fold_left _ (ownEntries sts) _) as [[m ei] ai].
  destruct (ai =? -1)%Z; eexists; reflexivity.
Qed.

Lemma projectionOf_wellLoaded (e : Engine) :
  wellLoaded e ->
  exists p, projectionOf e = Normal p
            /\ p_id p = currentStateId e
            /\ p_context p = context e
            /\ p_history p = history e.
Proof.
  intros H. destruct (mermaidOf_wellLoaded e H) as [m Hm].
  unfold projectionOf, result, getState, bind, getThis. cbn [this].
  unfold wellLoaded in H.
  destruct (config e) as [c|]; [destruct (states c) as [sts|]; [|now elim H]|];
    unfold index, ret, throw;
    rewrite generateMermaid_run; cbn [this fst]; rewrite Hm;
    eexists; repeat split.
Qed.

(** [notify] hands every subscriber the projection of the current state,
    in subscription order, and changes nothing else. *)
Lemma forEach_deliver (ls : list listener) (w : World) :
  forEach ls (fun fn => p <- getState ;; deliver fn p) w =
  match projectionOf (this w) with
  | Normal p =>
      (Normal tt,
       mkWorld (heap w) (this w) (delivered w ++ map (fun fn => (fn, p)) ls)%list)
  | Throw ex =>
      match ls with
      | [] => (Normal tt, w)
      | _ :: _ => (Throw ex, w)
      end
  end.
Proof.
  revert w. induction ls as [|fn ls IH]; intros w; simpl.
  - unfold ret. destruct (projectionOf (this w)); [|reflexivity].
    rewrite app_nil_r, world_eta. reflexivity.
  - unfold bind at 1. unfold bind at 1. rewrite getState_run.
    destruct (projectionOf (this w)) as [p|ex] eqn:Hp; [|reflexivity].
    unfold deliver at 1. rewrite IH; simpl. rewrite Hp.
    rewrite <- app_assoc. reflexivity.
Qed.

Lemma notify_run (w : World) :
  notify w =
  match projectionOf (this w) with
  | Normal p =>
      (Normal tt,
       mkWorld (heap w) (this w)
               (delivered w ++ map (fun fn => (fn, p)) (listeners (this w)))%list)
  | Throw ex =>
      match listeners (this w) with
      | [] => (Normal tt, w)
      | _ :: _ => (Throw ex, w)
      end
  end.
Proof.
  unfold notify, bind, getThis. apply forEach_deliver.
Qed.

Lemma notify_wellLoaded (w : World) :
  wellLoaded (this w) ->
  exists ps, notify w = (Normal tt, mkWorld (heap w) (this w) (delivered w ++ ps)%list).
Proof.
  intros H. destruct (projectionOf_wellLoaded _ H) as [p [Hp _]].
  rewrite notify_run, Hp. eexists; reflexivity.
Qed.

Lemma lookupTransition_run (eventId : string) (w : World) :
  lookupTransition eventId w = (result (lookupTransition eventId) w, w).
Proof.
  unfold result, lookupTransition, bind, getThis, index, ret, throw.
  destruct (config (this w)) as [c|]; [|reflexivity].
  destruct (states c) as [sts|]; [|reflexivity].
  destruct (getProp sts _) as [data|name|]; try reflexivity.
  destruct (on data); reflexivity.
Qed.

Lemma lookupTransition_wellLoaded (eventId : string) (w : World)
    (tr : property TransitionDef) :
  result (lookupTransition eventId) w = Normal tr -> wellLoaded (this w).
Proof.
  unfold result, lookupTransition, bind, getThis, wellLoaded, index, throw.
  destruct (config (this w)) as [c|]; cbn; [|discriminate].
  destruct (states c); cbn; [intros _|]; discriminate.
Qed.

Lemma wellLoaded_config (e e' : Engine) :
  config e' = config e -> wellLoaded e -> wellLoaded e'.
Proof. unfold wellLoaded. intros ->. exact (fun H => H). Qed.

(** Stepping through a method. *)
Lemma bind_getThis {B : Type} (k : Engine -> M B) (w : World) :
  bind getThis k w = k (this w) w.
Proof. reflexivity. Qed.

Lemma bind_read {B : Type} (l : loc) (k : value -> M B) (w : World) :
  bind (read l) k w = k (deref (heap w) l) w.
Proof. reflexivity. Qed.

Lemma bind_newObject {B : Type} (v : value) (k : loc -> M B) (w : World) :
  bind (newObject v) k w
  = k (List.length (heap w)) (mkWorld (heap w ++ [v])%list (this w) (delivered w)).
Proof. reflexivity. Qed.

Lemma bind_jsonCopy {B : Type} (v v' : value) (k : loc -> M B) (w : World) :
  roundTrip v = Normal v' ->
  bind (jsonCopy v) k w
  = k (List.length (heap w)) (mkWorld (heap w ++ [v'])%list (this w) (delivered w)).
Proof. intros E. unfold jsonCopy. rewrite E. reflexivity. Qed.

Lemma bind_jsonCopy_throw {B : Type} (v : value) (ex : exn) (k : loc -> M B)
    (w : World) :
  roundTrip v = Throw ex -> bind (jsonCopy v) k w = (Throw ex, w).
Proof. intros E. unfold jsonCopy. rewrite E. reflexivity. Qed.

Lemma bind_setField {B : Type} (f : Engine -> Engine) (k : unit -> M B) (w : World) :
  bind (setField f) k w = k tt (mkWorld (heap w) (f (this w)) (delivered w)).
Proof. reflexivity. Qed.

Lemma bind_ret {A B : Type} (a : A) (k : A -> M B) (w : World) :
  bind (ret a) k w = k a w.
Proof. reflexivity. Qed.

(** ** The effect of recording and of moving *)

Lemma recordHistory_run (now ev : string) (input : option value) (w : World) :
  recordHistory now ev input w =
  match roundTrip (deref (heap w) (context (this w))) with
  | Throw ex => (Throw ex, w)
  | Normal c =>
      match roundTrip (match input with Some v => v | None => VObj [] end) with
      | Throw ex => (Throw ex, mkWorld (heap w ++ [c])%list (this w) (delivered w))
      | Normal i =>
          (Normal tt,
           mkWorld
             ((heap w ++ [c]) ++ [i])%list
             (setHistory
                (history (this w)
                   ++ [mkEntry now (currentStateId (this w)) ev
                         (List.length (heap w))
                         (List.length (heap w ++ [c])%list)])%list
                (this w))
             (delivered w))
      end
  end.
Proof.
  unfold recordHistory. rewrite bind_getThis, bind_read.
  destruct (roundTrip (deref (heap w) (context (this w)))) as [c|ex] eqn:Ec.
  - rewrite (bind_jsonCopy _ c) by exact Ec.
    destruct (roundTrip (match input with Some v => v | None => VObj [] end))
      as [i|ex] eqn:Ei.
    + rewrite (bind_jsonCopy _ i) by exact Ei. reflexivity.
    + rewrite (bind_jsonCopy_throw _ ex) by exact Ei. reflexivity.
  - rewrite (bind_jsonCopy_throw _ ex) by exact Ec. reflexivity.
Qed.

(** [move] case by case: the copy of the context fails, the copy of the
    input fails, or the entry is recorded and the subscribers are called. *)
Lemma move_run (now eventId : string) (input : value)
    (tr : property TransitionDef) (w : World) :
  wellLoaded (this w) ->
  match roundTrip (deref (heap w) (context (this w))) with
  | Throw ex =>
      move now eventId input tr w
      = (Throw ex, halfMoved w (heap w) (context (this w)) eventId tr)
  | Normal c =>
      match roundTrip input with
      | Throw ex =>
          move now eventId input tr w
          = (Throw ex,
             halfMoved w (heap w ++ [c])%list (context (this w)) eventId tr)
      | Normal i =>
          exists ps,
            move now eventId input tr w
            = (Normal STrue,
               afterMove w (heap w) (context (this w)) now eventId c i tr ps)
      end
  end.
Proof.
  intros H.
  unfold move, bind at 1 2 3 4. unfold setField, bind, getThis, setThis.
  cbn [this heap delivered].
  rewrite recordHistory_run. cbn [this heap delivered context setLastEventId
    setCurrentStateId setPreviousStateId].
  destruct (roundTrip (deref (heap w) (context (this w)))) as [c|ex]; [|reflexivity].
  destruct (roundTrip input) as [i|ex]; [|reflexivity].
  match goal with |- context [notify ?w'] =>
    destruct (notify_wellLoaded w') as [ps Hps]; [exact H|rewrite Hps] end.
  exists ps. reflexivity.
Qed.

(** ** [send] case by case

    First for any value of the caller's own, then for a JSON value. *)

Lemma sendWith_run (evalAction : interpreter) (now eventId : string)
    (v : value) (w : World) :
  match result (lookupTransition eventId) w with
  | Throw ex => sendWith evalAction now eventId (Payload v) w = (Throw ex, w)
  | Normal Absent => sendWith evalAction now eventId (Payload v) w = (Normal SFalse, w)
  | Normal tr =>
      match runnable tr with
      | Some code =>
          match evalAction code with
          | Rejected message =>
              sendWith evalAction now eventId (Payload v) w
              = (Normal (SError (VStr message)), w)
          | Compiled actionFn =>
              match roundTrip (deref (heap w) (context (this w))) with
              | Throw ex =>
                  sendWith evalAction now eventId (Payload v) w
                  = (Normal (SError (VStr (messageText ex))), w)
              | Normal copy =>
                  match actionFn now copy (payloadOf v) with
                  | Threw input' thrown =>
                      sendWith evalAction now eventId (Payload v) w
                      = (match messageOf thrown with
                         | Normal message => Normal (SError message)
                         | Throw ex => Throw ex
                         end, w)
                  | Returned copy' input' r =>
                      sendWith evalAction now eventId (Payload v) w
                      = move now eventId input' tr
                             (installed w (contentOf r copy' input'))
                  end
              end
          end
      | None =>
          sendWith evalAction now eventId (Payload v) w
          = move now eventId (payloadOf v) tr w
      end
  end.
Proof.
  destruct (result (lookupTransition eventId) w) as [tr|ex] eqn:Hl.
  - assert (Hs : forall k : property TransitionDef -> M sendResult,
               bind (lookupTransition eventId) k w = k tr w).
    { intros k. unfold bind. rewrite lookupTransition_run, Hl. reflexivity. }
    assert (G : tr <> Absent ->
      match runnable tr with
      | Some code =>
          match evalAction code with
          | Rejected message =>
              sendWith evalAction now eventId (Payload v) w
              = (Normal (SError (VStr message)), w)
          | Compiled actionFn =>
              match roundTrip (deref (heap w) (context (this w))) with
              | Throw ex =>
                  sendWith evalAction now eventId (Payload v) w
                  = (Normal (SError (VStr (messageText ex))), w)
              | Normal copy =>
                  match actionFn now copy (payloadOf v) with
                  | Threw input' thrown =>
                      sendWith evalAction now eventId (Payload v) w
                      = (match messageOf thrown with
                         | Normal message => Normal (SError message)
                         | Throw ex => Throw ex
                         end, w)
                  | Returned copy' input' r =>
                      sendWith evalAction now eventId (Payload v) w
                      = move now eventId input' tr
                             (installed w (contentOf r copy' input'))
                  end
              end
          end
      | None =>
          sendWith evalAction now eventId (Payload v) w
          = move now eventId (payloadOf v) tr w
      end).
    { intros NA. unfold sendWith. rewrite Hs.
      assert (E : forall X (a b : X),
                 match tr with Absent => a | _ => b end = b)
        by (intros; destruct tr; [reflexivity|reflexivity|now elim NA]).
      rewrite E. cbn [resolve]. rewrite bind_ret. cbn [given]. rewrite bind_ret.
      destruct (runnable tr) as [code|]; [|reflexivity].
      destruct (evalAction code) as [message|actionFn]; [reflexivity|].
      rewrite bind_getThis, bind_read.
      destruct (roundTrip (deref (heap w) (context (this w)))) as [copy|ex];
        [|reflexivity].
      destruct (actionFn now copy (payloadOf v)) as [copy' input' r|input' thrown].
      - cbn [leave]. rewrite bind_ret.
        destruct r; cbn [returnedObject contentOf]; rewrite bind_newObject,
          bind_setField; reflexivity.
      - cbn [leave]. rewrite bind_ret. destruct (messageOf thrown); reflexivity. }
    destruct tr as [t|name|].
    + apply G. discriminate.
    + apply G. discriminate.
    + unfold sendWith. rewrite Hs. reflexivity.
  - unfold sendWith, bind. rewrite lookupTransition_run, Hl. reflexivity.
Qed.

Lemma payloadOf_ofJson (j : json) : payloadOf (ofJson j) = ofJson j.
Proof. destruct j; reflexivity. Qed.

Lemma send_run (evalAction : interpreter) (now eventId : string)
    (input : option json) (w : World) :
  match result (lookupTransition eventId) w with
  | Throw ex => send evalAction now eventId input w = (Throw ex, w)
  | Normal Absent => send evalAction now eventId input w = (Normal SFalse, w)
  | Normal tr =>
      match runnable tr with
      | Some code =>
          match evalAction code with
          | Rejected message =>
              send evalAction now eventId input w
              = (Normal (SError (VStr message)), w)
          | Compiled actionFn =>
              match roundTrip (deref (heap w) (context (this w))) with
              | Throw ex =>
                  send evalAction now eventId input w
                  = (Normal (SError (VStr (messageText ex))), w)
              | Normal copy =>
                  match actionFn now copy (defaultInput input) with
                  | Threw input' thrown =>
                      send evalAction now eventId input w
                      = (match messageOf thrown with
                         | Normal message => Normal (SError message)
                         | Throw ex => Throw ex
                         end, w)
                  | Returned copy' input' r =>
                      send evalAction now eventId input w
                      = move now eventId input' tr
                             (installed w (contentOf r copy' input'))
                  end
              end
          end
      | None =>
          send evalAction now eventId input w
          = move now eventId (defaultInput input) tr w
      end
  end.
Proof.
  pose proof (sendWith_run evalAction now eventId (ofJson (defaultInput input)) w) as R.
  rewrite payloadOf_ofJson in R. exact R.
Qed.

Lemma installed_live (w : World) (v : value) :
  deref (heap (installed w v)) (context (this (installed w v))) = v.
Proof.
  unfold installed. cbn [heap this context setContext].
  exact (deref_new (heap w) [] v).
Qed.

Lemma sendWith_shape (evalAction : interpreter) (now eventId : string)
    (v : value) (w : World) :
  sendShape evalAction now eventId (payloadOf v) w
    (result (sendWith evalAction now eventId (Payload v)) w)
    (run (sendWith evalAction now eventId (Payload v)) w).
Proof.
  pose proof (sendWith_run evalAction now eventId v w) as R.
  unfold result, run.
  destruct (result (lookupTransition eventId) w) as [tr|ex] eqn:Hl.
  2:{ rewrite R. apply shape_same. discriminate. }
  pose proof (lookupTransition_wellLoaded _ _ _ Hl) as Hw.
  assert (G : tr <> Absent ->
    match runnable tr with
    | Some code =>
        match evalAction code with
        | Rejected message =>
            sendWith evalAction now eventId (Payload v) w
            = (Normal (SError (VStr message)), w)
        | Compiled actionFn =>
            match roundTrip (deref (heap w) (context (this w))) with
            | Throw ex =>
                sendWith evalAction now eventId (Payload v) w
                = (Normal (SError (VStr (messageText ex))), w)
            | Normal copy =>
                match actionFn now copy (payloadOf v) with
                | Threw input' thrown =>
                    sendWith evalAction now eventId (Payload v) w
                    = (match messageOf thrown with
                       | Normal message => Normal (SError message)
                       | Throw ex => Throw ex
                       end, w)
                | Returned copy' input' r =>
                    sendWith evalAction now eventId (Payload v) w
                    = move now eventId input' tr
                           (installed w (contentOf r copy' input'))
                end
            end
        end
    | None =>
        sendWith evalAction now eventId (Payload v) w
        = move now eventId (payloadOf v) tr w
    end ->
    sendShape evalAction now eventId (payloadOf v) w
      (fst (sendWith evalAction now eventId (Payload v) w))
      (snd (sendWith evalAction now eventId (Payload v) w))).
  { intros NA G.
    assert (Mv : forall (w0 : World) (input' : value),
      atMove evalAction now tr (payloadOf v) w = Some (w0, input') ->
      wellLoaded (this w0) ->
      sendShape evalAction now eventId (payloadOf v) w
        (fst (move now eventId input' tr w0)) (snd (move now eventId input' tr w0))).
    { intros w0 input' A W0. pose proof (move_run now eventId input' tr w0 W0) as Mr.
      destruct (roundTrip (deref (heap w0) (context (this w0)))) as [c|ex] eqn:Ec.
      - destruct (roundTrip input') as [i|ex] eqn:Ei.
        + destruct Mr as [ps Mr]. rewrite Mr. cbn [fst snd].
          now apply (shape_moved _ _ _ _ _ tr w0 input').
        + rewrite Mr. cbn [fst snd]. now apply (shape_input _ _ _ _ _ tr w0 input').
      - rewrite Mr. cbn [fst snd]. now apply (shape_context _ _ _ _ _ tr w0 input'). }
    unfold atMove, prospect in Mv.
    destruct (runnable tr) as [code|].
    - destruct (evalAction code) as [message|actionFn].
      + rewrite G. apply shape_same. discriminate.
      + destruct (roundTrip (deref (heap w) (context (this w)))) as [copy|ex].
        * destruct (actionFn now copy (payloadOf v))
            as [copy' input' r|input' thrown].
          -- rewrite G. apply Mv; [reflexivity|exact Hw].
          -- rewrite G. apply shape_same. destruct (messageOf thrown); discriminate.
        * rewrite G. apply shape_same. discriminate.
    - rewrite G. apply Mv; [reflexivity|exact Hw]. }
  destruct tr as [t|name|].
  - apply G; [discriminate|exact R].
  - apply G; [discriminate|exact R].
  - rewrite R. apply shape_same. discriminate.
Qed.

Lemma send_shape (evalAction : interpreter) (now eventId : string)
    (input : option json) (w : World) :
  sendShape evalAction now eventId (defaultInput input) w
    (result (send evalAction now eventId input) w)
    (run (send evalAction now eventId input) w).
Proof.
  pose proof (sendWith_shape evalAction now eventId (ofJson (defaultInput input)) w) as S.
  rewrite payloadOf_ofJson in S. exact S.
Qed.

(** A [send] that answers [true] has moved and recorded. *)
Lemma send_true_inv (evalAction : interpreter) (now eventId : string)
    (input : option json) (w w' : World) :
  send evalAction now eventId input w = (Normal STrue, w') ->
  wellLoaded (this w)
  /\ exists tr w0 input' c i ps,
       result (lookupTransition eventId) w = Normal tr
       /\ tr <> Absent
       /\ atMove evalAction now tr (defaultInput input) w = Some (w0, input')
       /\ roundTrip (deref (heap w0) (context (this w0))) = Normal c
       /\ roundTrip input' = Normal i
       /\ w' = afterMove w0 (heap w0) (context (this w0)) now eventId c i tr ps.
Proof.
  intros H. pose proof (send_shape evalAction now eventId input w) as S.
  unfold result, run in S. rewrite H in S. cbn [fst snd] in S.
  inversion S as [r N|tr w0 input' ex Hl NA A Ec|tr w0 input' c ex Hl NA A Ec Ei
                  |tr w0 input' c i ps Hl NA A Ec Ei]; subst.
  - now elim N.
  - split; [exact (lookupTransition_wellLoaded _ _ _ Hl)|].
    exists tr, w0, input', c, i, ps. repeat split; assumption.
Qed.

(** A [send] that returns anything but [true] has changed nothing. *)
Lemma send_returns_unchanged (evalAction : interpreter) (now eventId : string)
    (input : option json) (w w' : World) (r : sendResult) :
  send evalAction now eventId input w = (Normal r, w') ->
  r <> STrue -> w' = w.
Proof.
  intros H N. pose proof (send_shape evalAction now eventId input w) as S.
  unfold result, run in S. rewrite H in S. cbn [fst snd] in S.
  inversion S; subst; try reflexivity. now elim N.
Qed.

(** ** [load] *)

Lemma load_run (now : string) (c : Config) (sts : list (string * StateDef))
    (w : World) :
  states c = Some sts ->
  let v : value := contextOf c in
  let h1 := (heap w ++ [v])%list in
  let h2 := (h1 ++ [v])%list in
  exists ps,
    load now (Some c) w
    = (Normal tt,
       mkWorld (h2 ++ [VObj []])%list
         (mkEngine (Some c) (ofField (initialState c)) Null (List.length (heap w))
            [mkEntry now (ofField (initialState c)) "Initial State"
               (List.length h1) (List.length h2)]
            (listeners (this w)) None)
         (delivered w ++ ps)%list).
Proof.
  intros Hs v h1 h2. unfold load. rewrite Hs.
  rewrite bind_setField.
  rewrite (bind_jsonCopy _ v) by (apply roundTrip_ofJson).
  rewrite !bind_setField. unfold bind at 1.
  rewrite recordHistory_run. cbn [this heap delivered context setContext
    setConfig setCurrentStateId setPreviousStateId setLastEventId setHistory
    config currentStateId previousStateId history listeners lastEventId app].
  fold h1. unfold h1 at 1. rewrite deref_new.
  unfold v at 1. rewrite roundTrip_ofJson. fold v.
  replace (roundTrip (VObj [])) with (Normal (VObj [])) by reflexivity.
  fold h2.
  match goal with |- context [notify ?w'] =>
    destruct (notify_wellLoaded w') as [ps Hps] end.
  { unfold wellLoaded. cbn. rewrite Hs. discriminate. }
  rewrite Hps. exists ps. reflexivity.
Qed.

(** ** [undo] *)

Lemma undo_noop (w : World) :
  List.length (history (this w)) <= 1 -> undo w = (Normal tt, w).
Proof.
  intros H. unfold undo. rewrite bind_getThis.
  destruct (Nat.leb_spec (List.length (history (this w))) 1); [reflexivity|lia].
Qed.

Lemma nth_error_tail {A : Type} (l : list A) (a : A) :
  nth_error (l ++ [a]) (List.length (l ++ [a]) - 1) = Some a.
Proof.
  rewrite last_length. replace (S (List.length l) - 1) with (List.length l) by lia.
  rewrite nth_error_app2 by lia. rewrite Nat.sub_diag. reflexivity.
Qed.

Lemma undo_run (w : World) (hs : list HistoryEntry) (restored top : HistoryEntry) :
  history (this w) = (hs ++ [restored; top])%list ->
  wellLoaded (this w) ->
  isJson (deref (heap w) (entryContext restored)) = true ->
  exists ps, undo w = (Normal tt, afterUndo w hs restored ps).
Proof.
  intros Hh Hw Hj. unfold undo. rewrite bind_getThis, Hh.
  assert (E : (hs ++ [restored; top] = (hs ++ [restored]) ++ [top])%list)
    by (rewrite <- app_assoc; reflexivity).
  rewrite E, removelast_last, nth_error_tail.
  destruct (Nat.leb_spec (List.length ((hs ++ [restored]) ++ [top])) 1) as [L|_].
  { rewrite !last_length in L. lia. }
  rewrite !bind_setField, bind_read.
  cbn [this heap delivered setHistory setCurrentStateId].
  rewrite (bind_jsonCopy _ (deref (heap w) (entryContext restored)))
    by (apply roundTrip_json; exact Hj).
  rewrite !bind_setField.
  cbn [this heap delivered setHistory setCurrentStateId setContext
       setLastEventId setPreviousStateId config currentStateId previousStateId
       context history listeners lastEventId].
  assert (P : forall (k : ident -> M unit) (w0 : World),
    bind (if (1 <? List.length (hs ++ [restored])%list)%nat
          then match nth_error (hs ++ [restored])%list
                               (List.length (hs ++ [restored])%list - 2) with
               | Some below => ret (state below)
               | None => throw (TypeError
                   "Cannot read properties of undefined (reading 'state')")
               end
          else ret Null) k w0 = k (stateBelow hs) w0).
  { intros k w0. unfold stateBelow.
    destruct hs as [|h0 hs0] using rev_ind.
    - reflexivity.
    - rewrite rev_unit, !last_length.
      destruct (Nat.ltb_spec 1 (S (S (List.length hs0)))) as [_|L]; [|lia].
      replace (S (S (List.length hs0)) - 2) with (List.length hs0) by lia.
      rewrite <- app_assoc, nth_error_app2 by lia.
      rewrite Nat.sub_diag. reflexivity. }
  rewrite P, bind_setField.
  cbn [this heap delivered setPreviousStateId config currentStateId
       previousStateId context history listeners lastEventId].
  match goal with |- context [notify ?w'] =>
    destruct (notify_wellLoaded w') as [ps Hps]; [exact Hw|rewrite Hps] end.
  exists ps. reflexivity.
Qed.

(** ** Reachable worlds and what holds in all of them *)

Lemma NoDup_fresh (old news : list loc) (n : nat) :
  NoDup old -> Forall (fun l => l < n) old ->
  NoDup news -> Forall (fun l => n <= l) news ->
  NoDup (old ++ news).
Proof.
  intros Ho Bo Hn Bn. apply NoDup_app; try assumption.
  intros a Ia Ib. rewrite Forall_forall in Bo, Bn.
  specialize (Bo a Ia). specialize (Bn a Ib). lia.
Qed.

Lemma NoDup_two (n : nat) : NoDup [n; S n].
Proof.
  constructor; [intros [H|[]]; lia|]. constructor; [intros []|constructor].
Qed.

Lemma Forall_lt_weaken (l : list loc) (n m : nat) :
  n <= m -> Forall (fun x => x < n) l -> Forall (fun x => x < m) l.
Proof. intros H. apply Forall_impl. intros; lia. Qed.

Lemma stateBelow_snoc (hs : list HistoryEntry) (en : HistoryEntry) :
  stateBelow (hs ++ [en]) = state en.
Proof. unfold stateBelow. rewrite rev_unit. reflexivity. Qed.

(** Objects that exist keep their content when the store grows. *)
Lemma json_extend (h ext : store) (ls : list loc) :
  Forall (fun l => l < List.length h) ls ->
  Forall (fun l => isJson (deref h l) = true) ls ->
  Forall (fun l => isJson (deref (h ++ ext)%list l) = true) ls.
Proof.
  rewrite !Forall_forall. intros B J l I.
  rewrite deref_old by (now apply B). now apply J.
Qed.

Lemma consistent_new : consistent newEngine.
Proof.
  constructor.
  - exact I.
  - repeat constructor.
  - repeat constructor. intros [].
  - constructor.
  - intros c H. discriminate H.
Qed.

(** The store grows, the fields stay. *)
Lemma consistent_grow (w : World) (ext : store) (e : Engine)
    (ps : list (listener * Projection)) :
  consistent w ->
  config e = config (this w) ->
  context e = context (this w) ->
  history e = history (this w) ->
  consistent (mkWorld (heap w ++ ext)%list e ps).
Proof.
  intros [Hl Hb Hn Hj Hr] Ec Ex Eh.
  assert (Eo : objects (mkWorld (heap w ++ ext)%list e ps) = objects w)
    by (unfold objects, snapshots; cbn [this]; now rewrite Ex, Eh).
  assert (Es : snapshots (mkWorld (heap w ++ ext)%list e ps) = snapshots w)
    by (unfold snapshots; cbn [this]; now rewrite Eh).
  pose proof Hb as Hb'. unfold objects in Hb'.
  apply Forall_cons_iff in Hb'. destruct Hb' as [_ Bs].
  constructor.
  - eapply wellLoaded_config; [exact Ec|exact Hl].
  - rewrite Eo. cbn [heap]. eapply Forall_lt_weaken; [|exact Hb].
    rewrite length_app. lia.
  - now rewrite Eo.
  - rewrite Es. cbn [heap]. now apply json_extend.
  - intros c Hc. cbn [this heap] in *. rewrite Ec in Hc.
    destruct (Hr c Hc) as [first [rest [Hh [He [Hs [Dc Di]]]]]].
    exists first, rest. rewrite Eh. split; [exact Hh|].
    split; [exact He|]. split; [exact Hs|].
    rewrite Forall_forall in Bs. unfold snapshots in Bs. rewrite Hh in Bs.
    rewrite !deref_old.
    + now split.
    + apply Bs. cbn. right. left. reflexivity.
    + apply Bs. cbn. left. reflexivity.
Qed.

(** A new object becomes the live context. *)
Lemma consistent_installed (w : World) (v : value) :
  consistent w -> consistent (installed w v).
Proof.
  intros Hc. pose proof Hc as [Hl Hb Hn Hj Hr].
  pose proof Hb as Hb'. unfold objects in Hb'.
  apply Forall_cons_iff in Hb'. destruct Hb' as [_ Bs].
  apply NoDup_cons_iff in Hn. destruct Hn as [_ Ns].
  pose proof (consistent_grow w [v] (this w) (delivered w) Hc eq_refl eq_refl eq_refl)
    as [Gl Gb Gn Gj Gr].
  unfold installed. constructor.
  - exact Hl.
  - unfold objects, snapshots. cbn [this heap context history setContext].
    rewrite last_length. constructor; [lia|].
    eapply Forall_lt_weaken; [|exact Bs]. lia.
  - unfold objects, snapshots. cbn [this heap context history setContext].
    constructor; [|exact Ns]. intros I. rewrite Forall_forall in Bs.
    specialize (Bs _ I). lia.
  - exact Gj.
  - exact Gr.
Qed.

(** An assignment into an object that no history entry holds. *)
Lemma consistent_assign (w : World) (l : loc) (v : value) :
  consistent w -> ~ In l (snapshots w) -> consistent (mutate l v w).
Proof.
  intros [Hl Hb Hn Hj Hr] NI. unfold mutate. constructor.
  - exact Hl.
  - unfold objects, snapshots in *. cbn [this heap]. rewrite update_length. exact Hb.
  - exact Hn.
  - unfold snapshots in *. cbn [this heap]. rewrite Forall_forall in *.
    intros x Ix. rewrite deref_update_other; [now apply Hj|].
    intros E. apply NI. now rewrite E.
  - intros c Hc. cbn [this heap] in *.
    destruct (Hr c Hc) as [first [rest [Hh [He [Hs [Dc Di]]]]]].
    exists first, rest. split; [exact Hh|]. split; [exact He|]. split; [exact Hs|].
    unfold snapshots in NI. rewrite Hh in NI. cbn in NI. split.
    + rewrite deref_update_other; [exact Dc|]. intros E. apply NI. now left.
    + rewrite deref_update_other; [exact Di|]. intros E. apply NI. right. now left.
Qed.

(** An object that no history entry holds becomes the live context. *)
Lemma consistent_adopt (w : World) (l : loc) :
  consistent w -> ~ In l (snapshots w) -> l < List.length (heap w) ->
  consistent (mkWorld (heap w) (setContext l (this w)) (delivered w)).
Proof.
  intros [Hl Hb Hn Hj Hr] NI B.
  unfold objects in Hb, Hn.
  apply Forall_cons_iff in Hb. destruct Hb as [_ Bs].
  apply NoDup_cons_iff in Hn. destruct Hn as [_ Ns].
  constructor.
  - exact Hl.
  - unfold objects, snapshots in *. cbn [this heap context history setContext].
    now constructor.
  - unfold objects, snapshots in *. cbn [this heap context history setContext].
    now constructor.
  - exact Hj.
  - exact Hr.
Qed.

Lemma consistent_halfMoved (w : World) (ext : store) (eventId : string)
    (tr : property TransitionDef) :
  consistent w ->
  consistent (halfMoved w (heap w ++ ext)%list (context (this w)) eventId tr).
Proof. intros Hc. unfold halfMoved. now apply consistent_grow. Qed.

Lemma consistent_afterMove (w : World) (now eventId : string) (c i : value)
    (tr : property TransitionDef) (ps : list (listener * Projection)) :
  consistent w ->
  isJson c = true -> isJson i = true ->
  consistent (afterMove w (heap w) (context (this w)) now eventId c i tr ps).
Proof.
  intros [Hl Hb Hn Hj Hr] Jc Ji.
  pose proof Hb as Hb'. unfold objects in Hb'.
  apply Forall_cons_iff in Hb'. destruct Hb' as [Bc Bs].
  constructor.
  - exact Hl.
  - unfold objects, snapshots, afterMove. cbn [this heap context history].
    rewrite flat_map_app. cbn [flat_map entryObjects entryContext entryInput app].
    rewrite !last_length.
    constructor; [lia|]. apply Forall_app. split.
    + eapply Forall_lt_weaken; [|exact Bs]. lia.
    + repeat constructor; lia.
  - unfold objects, snapshots, afterMove. cbn [this heap context history].
    rewrite flat_map_app. cbn [flat_map entryObjects entryContext entryInput app].
    rewrite !last_length.
    apply (NoDup_fresh (context (this w) :: _) _ (List.length (heap w))).
    + exact Hn.
    + exact Hb.
    + apply NoDup_two.
    + repeat constructor; lia.
  - unfold snapshots, afterMove. cbn [this heap context history].
    rewrite flat_map_app. cbn [flat_map entryObjects entryContext entryInput app].
    apply Forall_app. split.
    + rewrite <- app_assoc. now apply json_extend.
    + constructor; [|constructor; [|constructor]].
      * rewrite <- app_assoc. cbn [app]. now rewrite deref_new.
      * now rewrite deref_new.
  - intros cfg Hc. cbn [afterMove this heap config history] in *.
    destruct (Hr cfg Hc) as [first [rest [Hh [He [Hs [Dc Di]]]]]].
    exists first, (rest ++ [mkEntry now (ofField (toOf tr)) eventId
                              (List.length (heap w))
                              (List.length (heap w ++ [c])%list)])%list.
    rewrite Hh. split; [reflexivity|]. split; [exact He|]. split; [exact Hs|].
    rewrite Forall_forall in Bs. unfold snapshots in Bs. rewrite Hh in Bs.
    rewrite <- app_assoc, !deref_old.
    + now split.
    + apply Bs. cbn. right. left. reflexivity.
    + apply Bs. cbn. left. reflexivity.
Qed.

Lemma consistent_afterUndo (w : World) (hs : list HistoryEntry)
    (restored top : HistoryEntry) (ps : list (listener * Projection)) :
  consistent w ->
  history (this w) = (hs ++ [restored; top])%list ->
  consistent (afterUndo w hs restored ps).
Proof.
  intros [Hl Hb Hn Hj Hr] Hh.
  unfold objects, snapshots in Hb, Hn, Hj. rewrite Hh in Hb, Hn, Hj.
  apply Forall_cons_iff in Hb. destruct Hb as [Bc Bo].
  apply NoDup_cons_iff in Hn. destruct Hn as [Nc No].
  assert (E : (hs ++ [restored; top] = (hs ++ [restored]) ++ [top])%list)
    by (rewrite <- app_assoc; reflexivity).
  rewrite E, flat_map_app in Bo, No, Hj.
  apply Forall_app in Bo. destruct Bo as [Bo _].
  apply Forall_app in Hj. destruct Hj as [Hj _].
  apply NoDup_app_remove_r in No.
  constructor.
  - exact Hl.
  - unfold objects, snapshots, afterUndo. cbn [this heap context history].
    rewrite last_length. constructor; [lia|].
    eapply Forall_lt_weaken; [|exact Bo]. lia.
  - unfold objects, snapshots, afterUndo. cbn [this heap context history].
    constructor; [|exact No].
    intros I. rewrite Forall_forall in Bo. specialize (Bo _ I). lia.
  - unfold snapshots, afterUndo. cbn [this heap history]. now apply json_extend.
  - intros cfg Hc. cbn [afterUndo this heap config history] in *.
    destruct (Hr cfg Hc) as [first [rest [Hf [He [Hs [Dc Di]]]]]].
    rewrite Hh in Hf.
    assert (F : exists rest', (hs ++ [restored])%list = first :: rest').
    { destruct hs as [|h0 hs0]; cbn in Hf |- *; injection Hf as -> _;
        eexists; reflexivity. }
    destruct F as [rest' F]. exists first, rest'. split; [exact F|].
    split; [exact He|]. split; [exact Hs|].
    rewrite Forall_forall in Bo. rewrite F in Bo.
    rewrite !deref_old.
    + now split.
    + apply Bo. cbn. right. left. reflexivity.
    + apply Bo. cbn. left. reflexivity.
Qed.

Lemma consistent_load (w : World) (now : string) (cfg : option Config) :
  consistent w -> consistent (run (load now cfg) w).
Proof.
  intros Hc. destruct cfg as [c|]; [|exact Hc].
  destruct (states c) as [sts|] eqn:Es.
  2:{ unfold run, load. rewrite Es. exact Hc. }
  destruct (load_run now c sts w Es) as [ps H]. cbv zeta in H.
  unfold run. rewrite H. cbn [snd].
  constructor.
  - unfold wellLoaded. cbn. rewrite Es. discriminate.
  - unfold objects, snapshots. cbn [this heap context history flat_map entryObjects
      entryContext entryInput app].
    rewrite !last_length. repeat constructor; lia.
  - unfold objects, snapshots. cbn [this heap context history flat_map entryObjects
      entryContext entryInput app].
    rewrite !last_length. constructor; [intros [E|[E|[]]]; lia|].
    apply NoDup_two.
  - unfold snapshots. cbn [this heap history flat_map entryObjects
      entryContext entryInput app].
    constructor; [|constructor; [|constructor]].
    + rewrite <- app_assoc. cbn [app]. rewrite deref_new. apply isJson_ofJson.
    + rewrite deref_new. reflexivity.
  - intros c' Hc'. cbn [this heap config history] in *. injection Hc' as <-.
    do 2 eexists. split; [reflexivity|]. cbn [event state entryContext entryInput].
    split; [reflexivity|]. split; [reflexivity|]. split.
    + rewrite <- app_assoc. cbn [app]. apply deref_new.
    + apply deref_new.
Qed.

Lemma atMove_world (evalAction : interpreter) (now : string)
    (tr : property TransitionDef) (input input' : value) (w w0 : World) :
  atMove evalAction now tr input w = Some (w0, input') ->
  w0 = w \/ exists v, w0 = installed w v.
Proof.
  unfold atMove.
  destruct (prospect _ _ _ _ _) as [[live' i']|]; [|discriminate].
  intros E. injection E as <- _.
  destruct (runnable tr); [right; eexists; reflexivity|left; reflexivity].
Qed.

Section Invariant.

Variable evalAction : interpreter.

Lemma consistent_move (now eventId : string) (input : value)
    (tr : property TransitionDef) (w : World) :
  consistent w -> consistent (snd (move now eventId input tr w)).
Proof.
  intros Hc. pose proof (move_run now eventId input tr w (cons_loaded _ Hc)) as Mr.
  destruct (roundTrip (deref (heap w) (context (this w)))) as [c|ex] eqn:Ec.
  - destruct (roundTrip input) as [i|ex] eqn:Ei.
    + destruct Mr as [ps Mr]. rewrite Mr. cbn [snd].
      apply consistent_afterMove; [exact Hc| |]; eapply roundTrip_isJson; eassumption.
    + rewrite Mr. cbn [snd]. now apply consistent_halfMoved.
  - rewrite Mr. cbn [snd]. rewrite <- (app_nil_r (heap w)).
    now apply consistent_halfMoved.
Qed.

Lemma consistent_sendWith (w : World) (now eventId : string) (v : value) :
  consistent w ->
  consistent (run (sendWith evalAction now eventId (Payload v)) w).
Proof.
  intros Hc. pose proof (sendWith_shape evalAction now eventId v w) as S.
  assert (C0 : forall tr w0 input',
             atMove evalAction now tr (payloadOf v) w = Some (w0, input') ->
             consistent w0).
  { intros tr w0 input' A. destruct (atMove_world _ _ _ _ _ _ _ A) as [->|[v' ->]];
      [exact Hc|now apply consistent_installed]. }
  destruct S as [r N|tr w0 input' ex Hl NA A Ec|tr w0 input' c ex Hl NA A Ec Ei
                 |tr w0 input' c i ps Hl NA A Ec Ei].
  - exact Hc.
  - rewrite <- (app_nil_r (heap w0)). apply consistent_halfMoved. eauto.
  - apply consistent_halfMoved. eauto.
  - apply consistent_afterMove; [eauto| |]; eapply roundTrip_isJson; eassumption.
Qed.

(** [send] with an object of the store that no history entry holds. *)
Lemma consistent_sendHeld (w : World) (now eventId : string) (l : loc) :
  consistent w -> ~ In l (snapshots w) ->
  consistent (run (sendWith evalAction now eventId (Held l)) w).
Proof.
  intros Hc NI.
  pose proof (consistent_sendWith w now eventId (VObj []) Hc) as P.
  unfold run, sendWith in P |- *. unfold bind at 1 in P. unfold bind at 1.
  rewrite lookupTransition_run in P |- *.
  destruct (result (lookupTransition eventId) w) as [tr|ex]; [|exact Hc].
  assert (Rs : forall k : argument -> M sendResult,
             bind (resolve (Held l)) k w
             = k (if isUndefined (deref (heap w) l) then Payload (VObj [])
                  else Held l) w) by reflexivity.
  assert (G : tr <> Absent ->
    consistent (snd
      ((arg <- resolve (Held l) ;;
        input <- given arg ;;
        match runnable tr with
        | Some code =>
            match evalAction code with
            | Rejected message => ret (SError (VStr message))
            | Compiled actionFn =>
                e <- getThis ;;
                ctx <- read (context e) ;;
                match roundTrip ctx with
                | Throw ex => ret (SError (VStr (messageText ex)))
                | Normal copy =>
                    match actionFn now copy input with
                    | Returned copy' input' r =>
                        leave arg input' ;;
                        l <- returnedObject arg copy' input' r ;;
                        setField (setContext l) ;;
                        move now eventId input' tr
                    | Threw input' thrown =>
                        leave arg input' ;;
                        match messageOf thrown with
                        | Normal message => ret (SError message)
                        | Throw ex => throw ex
                        end
                    end
                end
            end
        | None => move now eventId input tr
        end) w))).
  { intros NA. rewrite Rs.
    destruct (isUndefined (deref (heap w) l)) eqn:U.
    { destruct tr; [exact P|exact P|now elim NA]. }
    assert (B : l < List.length (heap w)).
    { destruct (Nat.lt_ge_cases l (List.length (heap w))) as [L|Ge]; [exact L|].
      unfold deref in U. rewrite nth_overflow in U by exact Ge. discriminate U. }
    cbn [given]. rewrite bind_read.
    destruct (runnable tr) as [code|]; [|now apply consistent_move].
    destruct (evalAction code) as [message|actionFn]; [exact Hc|].
    rewrite bind_getThis, bind_read.
    destruct (roundTrip (deref (heap w) (context (this w)))) as [copy|ex];
      [|exact Hc].
    destruct (actionFn now copy (deref (heap w) l)) as [copy' input' r|input' thrown].
    - pose proof (consistent_assign w l input' Hc NI) as C1.
      cbn [leave]. unfold assign. unfold bind at 1.
      change (mkWorld (update (heap w) l input') (this w) (delivered w))
        with (mutate l input' w).
      destruct r as [| |v]; cbn [returnedObject].
      + rewrite bind_newObject, bind_setField.
        apply (consistent_move now eventId input' tr (installed (mutate l input' w) copy')).
        now apply consistent_installed.
      + rewrite bind_ret, bind_setField.
        apply (consistent_move now eventId input' tr
                 (mkWorld (heap (mutate l input' w))
                          (setContext l (this (mutate l input' w)))
                          (delivered (mutate l input' w)))).
        apply consistent_adopt; [exact C1|exact NI|].
        cbn [mutate heap]. now rewrite update_length.
      + rewrite bind_newObject, bind_setField.
        apply (consistent_move now eventId input' tr (installed (mutate l input' w) v)).
        now apply consistent_installed.
    - pose proof (consistent_assign w l input' Hc NI) as C1.
      cbn [leave]. unfold assign. unfold bind at 1.
      destruct (messageOf thrown); exact C1. }
  destruct tr as [t|name|].
  - apply G. discriminate.
  - apply G. discriminate.
  - exact Hc.
Qed.

Lemma consistent_send (w : World) (now eventId : string) (input : option json) :
  consistent w -> consistent (run (send evalAction now eventId input) w).
Proof. apply consistent_sendWith. Qed.

Lemma history_two_or_short (hs : list HistoryEntry) :
  List.length hs <= 1
  \/ exists hs' restored top, hs = (hs' ++ [restored; top])%list.
Proof.
  destruct hs as [|top hs _] using rev_ind; [left; simpl; lia|].
  destruct hs as [|restored hs _] using rev_ind; [left; simpl; lia|].
  right. exists hs, restored, top. rewrite <- app_assoc. reflexivity.
Qed.

(** In a consistent world the context of the entry below the tail is JSON. *)
Lemma restored_json (w : World) (hs : list HistoryEntry)
    (restored top : HistoryEntry) :
  consistent w ->
  history (this w) = (hs ++ [restored; top])%list ->
  isJson (deref (heap w) (entryContext restored)) = true.
Proof.
  intros Hc Hh. pose proof (cons_json _ Hc) as Hj. unfold snapshots in Hj.
  rewrite Hh, Forall_forall in Hj. apply Hj. rewrite flat_map_app.
  apply in_or_app. right. left. reflexivity.
Qed.

Lemma consistent_undo (w : World) :
  consistent w -> consistent (run undo w).
Proof.
  intros Hc. unfold run.
  destruct (history_two_or_short (history (this w))) as [H|[hs [r [t H]]]].
  - rewrite undo_noop by exact H. exact Hc.
  - destruct (undo_run w hs r t H (cons_loaded _ Hc) (restored_json _ _ _ _ Hc H))
      as [ps E].
    rewrite E. cbn [snd]. eapply consistent_afterUndo; eassumption.
Qed.

Lemma reachable_consistent (w : World) : reachable evalAction w -> consistent w.
Proof.
  induction 1 as [|w fn _ IH|w now cfg _ IH|w now _ IH|w now ev input _ IH
                  |w now ev l _ IH NI|w _ IH|w _ IH|w _ IH|w l v _ IH NI].
  - exact consistent_new.
  - destruct IH as [Hl Hb Hn Hj Hr]. constructor; assumption.
  - now apply consistent_load.
  - unfold run, reset. rewrite bind_getThis.
    destruct (config (this w)) as [c|]; [|exact IH].
    now apply (consistent_load w now (Some c)).
  - now apply consistent_sendWith.
  - now apply consistent_sendHeld.
  - now apply consistent_undo.
  - unfold run. rewrite getState_run. exact IH.
  - unfold run. rewrite generateMermaid_run. exact IH.
  - now apply consistent_assign.
Qed.

(** A [send] with a JSON value, or with nothing, is one of them. *)
Lemma reachable_send (w : World) (now eventId : string) (input : option json) :
  reachable evalAction w -> reachable evalAction (run (send evalAction now eventId input) w).
Proof. intros R. exact (reach_send evalAction w now eventId _ R). Qed.

End Invariant.

Lemma coffeeLoaded_reachable : reachable sampleActions coffeeLoaded.
Proof.
  unfold coffeeLoaded, loaded. apply reach_load, reach_subscribe, reach_new.
Qed.

Lemma coffeeBrewing_reachable : reachable sampleActions coffeeBrewing.
Proof. unfold coffeeBrewing. apply reachable_send, coffeeLoaded_reachable. Qed.

(** ** Action failure *)





(** A caller that passes the live context as input: the action of the
    spoiling machine marks it and fails, and the mark stays in the context
    of the engine. *)
Lemma failed_action_marks_handed_context :
  exists w' : World,
    sendWith sampleActions "10:00:01" "BREW"
             (Held (context (this (loaded spoilingMachine))))
             (loaded spoilingMachine)
    = (Normal (SError (VStr "boom")), w')
    /\ this w' = this (loaded spoilingMachine)
    /\ deref (heap (loaded spoilingMachine)) (context (this (loaded spoilingMachine)))
       = VObj [("water", VNum 100)]
    /\ deref (heap w') (context (this w'))
       = VObj [("water", VNum 100); ("seen", VBool true)].
Proof.
  eexists. split; [vm_compute; reflexivity|]. repeat split.
Qed.

(** The error object of a thrown [Error] carries its message; a thrown
    string leaves [undefined] in it. *)
Lemma send_error_objects :
  send sampleActions "10:00:01" "BREW" None (loaded faultyMachine)
  = (Normal (SError (VStr "boom")), loaded faultyMachine)
  /\ send sampleActions "10:00:01" "BREW" None (loaded throwTextMachine)
     = (Normal (SError VUndefined), loaded throwTextMachine)
  /\ send sampleActions "10:00:01" "BREW" None (loaded throwNullMachine)
     = (Throw (TypeError "Cannot read properties of null (reading 'message')"),
        loaded throwNullMachine).
Proof. repeat split; vm_compute; reflexivity. Qed.

(** ** Exceptions *)

(** C3. [send] on an engine into which nothing was loaded reads
    [this.config.states] with [this.config] being [null]: a [TypeError]
    leaves the method. *)
Theorem send_before_load_throws
    (evalAction : interpreter)
    (now eventId : string) (input : option json) :
  send evalAction now eventId input newEngine
  = (Throw (TypeError "Cannot read properties of null (reading 'states')"),
     newEngine).
Proof. vm_compute. reflexivity. Qed.

(** After a transition to a state missing from [states], the next [send]
    reads [on] of [undefined] and throws as well, while [getState] of the
    same engine returns a projection. *)
Lemma send_in_dangling_state_throws :
  let w := run (send sampleActions "10:00:01" "GO" None) (loaded danglingMachine) in
  currentStateId (this w) = Id "nowhere"
  /\ send sampleActions "10:00:02" "GO" None w
     = (Throw (TypeError "Cannot read properties of undefined (reading 'on')"), w)
  /\ exists p, getState w = (Normal p, w)
               /\ p_data p = Some Absent /\ p_availableEvents p = Some [].
Proof.
  cbv zeta. split; [vm_compute; reflexivity|]. split; [vm_compute; reflexivity|].
  eexists. split; [vm_compute; reflexivity|]. split; reflexivity.
Qed.

(** An exception raised by the lookup leaves the world as it was. *)
Lemma send_lookup_throws
    (evalAction : interpreter)
    (now eventId : string) (input : option json) (w : World) (ex : exn) :
  result (lookupTransition eventId) w = Throw ex ->
  send evalAction now eventId input w = (Throw ex, w).
Proof.
  intros Hl. pose proof (send_run evalAction now eventId input w) as R.
  rewrite Hl in R. exact R.
Qed.

(** ** Events without a transition *)

(** An event for which [on[eventId]] is [undefined] is refused and nothing
    changes. *)
Lemma send_no_transition
    (evalAction : interpreter)
    (now eventId : string) (input : option json) (w : World) :
  result (lookupTransition eventId) w = Normal Absent ->
  send evalAction now eventId input w = (Normal SFalse, w).
Proof.
  intros Hl. pose proof (send_run evalAction now eventId input w) as H.
  rewrite Hl in H. exact H.
Qed.

Lemma own_None_not_key {A : Type} (o : list (string * A)) (key : string) :
  own o key = None <-> ~ In key (keys o).
Proof.
  induction o as [|[k a] o IH]; simpl.
  - tauto.
  - destruct (String.eqb_spec k key) as [->|Hne].
    + split; [discriminate|]. intros H; elim H; now left.
    + rewrite IH. split.
      * intros H [E|I]; [now elim Hne|now elim H].
      * intros H I. apply H. now right.
Qed.

(** [o[key]] is [undefined] exactly when [key] is neither a key of [o] nor
    the name of a member of [Object.prototype]. *)
Lemma getProp_Absent {A : Type} (o : list (string * A)) (key : string) :
  getProp o key = Absent <-> ~ In key (keys o) /\ inherited key = false.
Proof.
  unfold getProp. rewrite <- own_None_not_key.
  destruct (own o key); destruct (inherited key); split;
    try discriminate; try tauto; intros [H1 H2]; discriminate.
Qed.

(** C4. ["toString"] is not a key of the [on] mapping of state [idle] of
    the coffee machine, yet [send] finds [Object.prototype.toString] under
    that name, takes it for a transition, reports success, moves the
    engine to the state [undefined] and records a history entry. *)
Theorem send_inherited_name_is_taken :
  exists data transitions w',
    getProp (match states coffeeMachine with Some s => s | None => [] end)
            (toPropertyKey (currentStateId (this coffeeLoaded))) = Own data
    /\ on data = Some transitions
    /\ ~ In "toString" (keys transitions)
    /\ send sampleActions "10:00:01" "toString" None coffeeLoaded = (Normal STrue, w')
    /\ currentStateId (this w') = Undefined
    /\ previousStateId (this w') = Id "idle"
    /\ lastEventId (this w') = Some "toString"
    /\ List.length (history (this w')) = 2%nat
    /\ List.length (delivered w') = S (List.length (delivered coffeeLoaded)).
Proof.
  do 3 eexists. split; [vm_compute; reflexivity|]. split; [reflexivity|].
  split.
  - simpl. intros [H|[]]; discriminate.
  - split; [vm_compute; reflexivity|]. repeat split.
Qed.

(** ** Successful [send] *)


(** The live context at the time [send] moves is the one in prospect. *)
Lemma atMove_live (evalAction : interpreter) (now : string)
    (tr : property TransitionDef) (input input' : value) (w w0 : World) :
  atMove evalAction now tr input w = Some (w0, input') ->
  prospect evalAction now tr (deref (heap w) (context (this w))) input
  = Some (deref (heap w0) (context (this w0)), input')
  /\ config (this w0) = config (this w)
  /\ currentStateId (this w0) = currentStateId (this w)
  /\ previousStateId (this w0) = previousStateId (this w)
  /\ history (this w0) = history (this w)
  /\ listeners (this w0) = listeners (this w)
  /\ delivered w0 = delivered w
  /\ exists ext, heap w0 = (heap w ++ ext)%list.
Proof.
  unfold atMove.
  destruct (prospect _ _ _ _ _) as [[live' i']|] eqn:P; [|discriminate].
  intros E. injection E as <- <-.
  destruct (runnable tr) eqn:Rn.
  - rewrite installed_live. repeat split. exists [live']. reflexivity.
  - unfold prospect in P. rewrite Rn in P. injection P as <- <-.
    repeat split. exists []. now rewrite app_nil_r.
Qed.


(** What [send] leaves behind in that case: the fields have moved, the
    context is [undefined], and the history has no entry for the move. *)
Lemma forgetful_send_moves_without_record :
  exists message w',
    send sampleActions "10:00:01" "BREW" None (loaded forgetfulMachine)
    = (Throw (SyntaxError message), w')
    /\ currentStateId (this w') = Id "brewing"
    /\ previousStateId (this w') = Id "idle"
    /\ lastEventId (this w') = Some "BREW"
    /\ deref (heap w') (context (this w')) = VUndefined
    /\ history (this w') = history (this (loaded forgetfulMachine))
    /\ delivered w' = delivered (loaded forgetfulMachine).
Proof. do 2 eexists. split; [vm_compute; reflexivity|]. repeat split. Qed.



(** ** [load] *)

(** C7. After [load] of a definition whose [states] is present: the history
    is one entry, marked ["Initial State"]; the live context and the context
    of that entry are two new objects, each holding [definition.context], or
    [{}] when it is missing; [currentStateId] is [definition.initialState];
    [previousStateId] and [lastEventId] are [null]. *)
Theorem load_postcondition (now : string) (c : Config) (w : World) :
  states c <> None ->
  exists w' en,
    load now (Some c) w = (Normal tt, w')
    /\ history (this w') = [en]
    /\ event en = "Initial State"
    /\ state en = ofField (initialState c)
    /\ deref (heap w') (context (this w'))
       = JObj (match initialContext c with Some members => members | None => [] end)
    /\ deref (heap w') (entryContext en)
       = JObj (match initialContext c with Some members => members | None => [] end)
    /\ List.length (heap w) <= context (this w')
    /\ context (this w') < entryContext en
    /\ currentStateId (this w') = ofField (initialState c)
    /\ previousStateId (this w') = Null
    /\ lastEventId (this w') = None
    /\ config (this w') = Some c.
Proof.
  intros Hs. destruct (states c) as [sts|] eqn:E; [|now elim Hs].
  destruct (load_run now c sts w E) as [ps H]. cbv zeta in H.
  do 2 eexists. split; [exact H|].
  cbn [this heap history event state context entryContext currentStateId
       previousStateId lastEventId config].
  repeat split.
  - rewrite <- !app_assoc. cbn [app]. apply deref_new.
  - rewrite <- app_assoc. cbn [app]. apply deref_new.
  - lia.
  - cbn [entryContext]. rewrite length_app. cbn [List.length]. lia.
Qed.

Lemma load_postcondition_witness :
  exists w' en,
    load "10:00:00" (Some coffeeMachine) newEngine = (Normal tt, w')
    /\ history (this w') = [en]
    /\ event en = "Initial State"
    /\ state en = Id "idle"
    /\ deref (heap w') (context (this w')) = JObj [("water", JNum 100)]
    /\ deref (heap w') (entryContext en) = JObj [("water", JNum 100)]
    /\ List.length (heap newEngine) <= context (this w')
    /\ context (this w') < entryContext en
    /\ currentStateId (this w') = Id "idle"
    /\ previousStateId (this w') = Null
    /\ lastEventId (this w') = None
    /\ config (this w') = Some coffeeMachine.
Proof.
  apply (load_postcondition "10:00:00" coffeeMachine newEngine).
  discriminate.
Defined.

(** ** [undo] *)

(** What a [send] that answered [true] leaves of the store and the history
    it found. *)
Lemma send_true_extends (evalAction : interpreter) (now eventId : string)
    (input : option json) (w w' : World) :
  send evalAction now eventId input w = (Normal STrue, w') ->
  wellLoaded (this w')
  /\ lastEventId (this w') = Some eventId
  /\ previousStateId (this w') = currentStateId (this w)
  /\ (exists ext, heap w' = (heap w ++ ext)%list)
  /\ exists top,
       history (this w') = (history (this w) ++ [top])%list
       /\ event top = eventId
       /\ state top = currentStateId (this w')
       /\ entryContext top < List.length (heap w')
       /\ List.length (heap w) <= entryContext top
       /\ roundTrip (deref (heap w') (context (this w')))
          = Normal (deref (heap w') (entryContext top)).
Proof.
  intros H.
  destruct (send_true_inv _ _ _ _ _ _ H)
    as [Hw [tr [w0 [input' [c [i [ps [Hl [NA [A [Ec [Ei ->]]]]]]]]]]]].
  destruct (atMove_live _ _ _ _ _ _ _ A)
    as [_ [Hc [Hcur [Hprev [Hh [Hls [Hd [ext Hext]]]]]]]].
  cbn [afterMove this heap history lastEventId previousStateId currentStateId].
  split; [eapply wellLoaded_config; [|exact Hw]; cbn; exact Hc|].
  split; [reflexivity|]. split; [exact Hcur|]. split.
  { rewrite Hext, <- !app_assoc. eexists. reflexivity. }
  eexists. rewrite Hh. split; [reflexivity|].
  cbn [event state entryContext]. split; [reflexivity|]. split; [reflexivity|].
  split; [rewrite !last_length; lia|]. split; [rewrite Hext, length_app; lia|].
  assert (B : context (this w0) < List.length (heap w0)).
  { destruct (Nat.lt_ge_cases (context (this w0)) (List.length (heap w0)))
      as [L|G]; [exact L|].
    unfold deref in Ec. rewrite nth_overflow in Ec by exact G. discriminate Ec. }
  rewrite <- !app_assoc. cbn [app]. rewrite deref_new, deref_old by exact B.
  exact Ec.
Qed.

(** C10. When a transition is taken on an event named ["Initial State"] and
    another one after it, [undo] brings back the entry of the first as the
    tail of the history and, reading its event as the marker [load] writes,
    leaves [lastEventId] at [null] instead of the event. *)
Theorem undo_sentinel_collision
    (evalAction : interpreter)
    (now1 now2 ev2 : string) (in1 in2 : option json) (w w1 w2 : World) :
  send evalAction now1 "Initial State" in1 w = (Normal STrue, w1) ->
  send evalAction now2 ev2 in2 w1 = (Normal STrue, w2) ->
  lastEventId (this w1) = Some "Initial State"
  /\ exists w3 hs en,
       undo w2 = (Normal tt, w3)
       /\ history (this w3) = (hs ++ [en])%list
       /\ history (this w3) = history (this w1)
       /\ event en = "Initial State"
       /\ lastEventId (this w3) = None.
Proof.
  intros H1 H2.
  destruct (send_true_extends _ _ _ _ _ _ H1)
    as [W1 [L1 [_ [_ [en [Hh1 [Ev1 [_ [B1 [_ R1]]]]]]]]]].
  destruct (send_true_extends _ _ _ _ _ _ H2)
    as [W2 [_ [_ [[ext Hext] [top [Hh2 _]]]]]].
  split; [exact L1|].
  assert (Hh : history (this w2) = (history (this w) ++ [en; top])%list)
    by (rewrite Hh2, Hh1, <- app_assoc; reflexivity).
  assert (J : isJson (deref (heap w2) (entryContext en)) = true).
  { rewrite Hext, deref_old by exact B1. eapply roundTrip_isJson. exact R1. }
  destruct (undo_run w2 _ _ _ Hh W2 J) as [ps H].
  exists (afterUndo w2 (history (this w)) en ps), (history (this w)), en.
  split; [exact H|]. split; [reflexivity|]. split; [now rewrite Hh1|].
  split; [exact Ev1|]. cbn [afterUndo this lastEventId]. now rewrite Ev1.
Qed.

Lemma undo_sentinel_collision_witness :
  lastEventId (this (run (send sampleActions "10:00:01" "Initial State" None)
                         (loaded sentinelMachine)))
  = Some "Initial State"
  /\ exists w3 hs en,
       undo (run (send sampleActions "10:00:02" "NEXT" None)
                 (run (send sampleActions "10:00:01" "Initial State" None)
                      (loaded sentinelMachine)))
       = (Normal tt, w3)
       /\ history (this w3) = (hs ++ [en])%list
       /\ history (this w3)
          = history (this (run (send sampleActions "10:00:01" "Initial State" None)
                               (loaded sentinelMachine)))
       /\ event en = "Initial State"
       /\ lastEventId (this w3) = None.
Proof.
  apply (undo_sentinel_collision sampleActions "10:00:01" "10:00:02" "NEXT"
           None None (loaded sentinelMachine)); vm_compute; reflexivity.
Defined.

(** ** Alignment of the fields with the history *)

Lemma aligned_load (now : string) (c : Config) (w : World) :
  states c <> None -> aligned (run (load now (Some c)) w).
Proof.
  intros Hs. destruct (states c) as [sts|] eqn:E; [|now elim Hs].
  destruct (load_run now c sts w E) as [ps H]. cbv zeta in H.
  unfold run. rewrite H. cbn [snd].
  exists [], (mkEntry now (ofField (initialState c)) "Initial State"
                (List.length (heap w ++ [ofJson (contextOf c)])%list)
                (List.length ((heap w ++ [ofJson (contextOf c)])
                                ++ [ofJson (contextOf c)])%list)).
  cbn [this heap history state event entryContext currentStateId context
       previousStateId lastEventId].
  split; [reflexivity|]. split; [reflexivity|]. split.
  - set (v := ofJson (contextOf c)).
    assert (D1 : deref (((heap w ++ [v]) ++ [v]) ++ [VObj []])%list
                       (List.length (heap w)) = v)
      by (rewrite <- !app_assoc; apply deref_new).
    assert (D2 : deref (((heap w ++ [v]) ++ [v]) ++ [VObj []])%list
                       (List.length (heap w ++ [v])%list) = v)
      by (rewrite <- (app_assoc (heap w ++ [v])%list); apply deref_new).
    rewrite D1, D2. apply roundTrip_ofJson.
  - split; [reflexivity|]. right. now split.
Qed.

(** A [send] that answers [true] keeps the fields aligned. *)
Lemma aligned_send (evalAction : interpreter) (now eventId : string)
    (input : option json) (w w' : World) :
  aligned w ->
  send evalAction now eventId input w = (Normal STrue, w') ->
  aligned w'.
Proof.
  intros [hs [en [Hh [Hst _]]]] H.
  destruct (send_true_extends _ _ _ _ _ _ H)
    as [_ [L [P [_ [top [Hh' [Ev [St [_ [_ R]]]]]]]]]].
  exists (hs ++ [en])%list, top. rewrite Hh', Hh. split; [reflexivity|].
  split; [exact St|]. split; [exact R|].
  split; [now rewrite stateBelow_snoc, P|]. left. now rewrite L, Ev.
Qed.

(** An [undo] that has something to undo aligns the fields, however they
    were. *)
Lemma aligned_undo (w : World) (hs : list HistoryEntry)
    (restored top : HistoryEntry) :
  consistent w ->
  history (this w) = (hs ++ [restored; top])%list ->
  aligned (run undo w).
Proof.
  intros Hc Hh.
  destruct (undo_run w hs restored top Hh (cons_loaded _ Hc)
              (restored_json _ _ _ _ Hc Hh)) as [ps E].
  unfold run. rewrite E. cbn [snd].
  exists hs, restored. cbn [afterUndo this heap history currentStateId context
                            previousStateId lastEventId].
  split; [reflexivity|]. split; [reflexivity|].
  assert (B : entryContext restored < List.length (heap w)).
  { pose proof (cons_bound _ Hc) as Hb. unfold objects, snapshots in Hb.
    rewrite Hh in Hb. apply Forall_cons_iff in Hb. destruct Hb as [_ Hb].
    rewrite Forall_forall in Hb. apply Hb. rewrite flat_map_app.
    apply in_or_app. right. left. reflexivity. }
  split.
  - rewrite deref_new, deref_old by exact B.
    apply roundTrip_json. exact (restored_json _ _ _ _ Hc Hh).
  - split; [reflexivity|].
    destruct (String.eqb_spec (event restored) "Initial State") as [E'|N].
    + right. now split.
    + left. reflexivity.
Qed.

(** C5, as stated, fails: on the machine without water the context before
    [FINISH] is [{ water: NaN }], and [undo] after [FINISH] leaves
    [{ water: null }], the copy that the history holds. *)
Lemma undo_restores_the_copy : ~ undoRestoresContext sampleActions.
Proof.
  intros H.
  assert (R : reachable sampleActions dryBrewing).
  { unfold dryBrewing, loaded.
    apply reach_send, reach_load, reach_subscribe, reach_new. }
  assert (S : send sampleActions "10:00:02" "FINISH" None dryBrewing
              = (Normal STrue,
                 run (send sampleActions "10:00:02" "FINISH" None) dryBrewing))
    by (vm_compute; reflexivity).
  specialize (H _ _ _ _ _ R S). vm_compute in H. discriminate H.
Qed.

(** C5, amended. In a world the engine can be in and in which the fields
    agree with the tail of the history (as after [load], after a [send]
    that answered [true] and after an [undo]), a [send] that answers [true]
    leaves at least two entries, and [undo] right after it removes exactly
    the last of them, brings [currentStateId] and [previousStateId] back to
    what they were before the [send], and makes the context a new object
    holding what [JSON.parse(JSON.stringify(...))] gives for the context
    before the [send]: the same content when that was a JSON value. With at
    most one entry in the history, [undo] returns the world as it is,
    nothing delivered. *)
Theorem undo_inverts_send (evalAction : interpreter) (w : World) :
  reachable evalAction w ->
  (forall (now eventId : string) (input : option json) (w1 : World),
      aligned w ->
      send evalAction now eventId input w = (Normal STrue, w1) ->
      2 <= List.length (history (this w1))
      /\ exists w2 top,
           undo w1 = (Normal tt, w2)
           /\ currentStateId (this w2) = currentStateId (this w)
           /\ roundTrip (deref (heap w) (context (this w)))
              = Normal (deref (heap w2) (context (this w2)))
           /\ (isJson (deref (heap w) (context (this w))) = true ->
               deref (heap w2) (context (this w2))
               = deref (heap w) (context (this w)))
           /\ List.length (heap w1) <= context (this w2)
           /\ previousStateId (this w2) = previousStateId (this w)
           /\ history (this w1) = (history (this w2) ++ [top])%list
           /\ history (this w2) = history (this w))
  /\ (List.length (history (this w)) <= 1 -> undo w = (Normal tt, w)).
Proof.
  intros Hr. split; [|apply undo_noop].
  intros now eventId input w1 [hs [en [Hh [Hst [Hrt [Hp _]]]]]] Hs.
  pose proof (reachable_consistent _ _ Hr) as Hc.
  assert (Hc1 : consistent w1).
  { replace w1 with (run (send evalAction now eventId input) w)
      by (unfold run; now rewrite Hs).
    now apply consistent_send. }
  destruct (send_true_extends _ _ _ _ _ _ Hs)
    as [W1 [_ [_ [[ext Hext] [top [Hh1 _]]]]]].
  assert (Hh1' : history (this w1) = (hs ++ [en; top])%list)
    by (rewrite Hh1, Hh, <- app_assoc; reflexivity).
  assert (B : entryContext en < List.length (heap w)).
  { pose proof (cons_bound _ Hc) as Hb. unfold objects, snapshots in Hb.
    rewrite Hh in Hb. apply Forall_cons_iff in Hb. destruct Hb as [_ Hb].
    rewrite Forall_forall in Hb. apply Hb. rewrite flat_map_app.
    apply in_or_app. right. left. reflexivity. }
  split.
  { rewrite Hh1', length_app. cbn [List.length]. lia. }
  destruct (undo_run w1 hs en top Hh1' W1 (restored_json _ _ _ _ Hc1 Hh1'))
    as [ps Hu].
  exists (afterUndo w1 hs en ps), top.
  split; [exact Hu|]. cbn [afterUndo this heap currentStateId context
                           previousStateId history].
  assert (D : deref (heap w1 ++ [deref (heap w1) (entryContext en)])%list
                    (List.length (heap w1))
              = deref (heap w) (entryContext en)).
  { rewrite deref_new, Hext. apply deref_old. exact B. }
  split; [exact Hst|]. split; [now rewrite D|]. split.
  { intros J. rewrite D. rewrite (roundTrip_json _ J) in Hrt. now injection Hrt. }
  split; [lia|]. split; [symmetry; exact Hp|].
  split; [rewrite Hh1', <- app_assoc; reflexivity|now rewrite Hh].
Qed.

Lemma coffeeBrewing_aligned : aligned coffeeBrewing.
Proof.
  unfold coffeeBrewing.
  apply (aligned_send sampleActions "10:00:01" "BREW" None coffeeLoaded).
  - unfold coffeeLoaded, loaded. apply aligned_load. discriminate.
  - vm_compute. reflexivity.
Qed.

Lemma undo_inverts_send_witness :
  2 <= List.length
         (history (this (run (send sampleActions "10:00:02" "FINISH" None)
                             coffeeBrewing)))
  /\ exists w2 top,
       undo (run (send sampleActions "10:00:02" "FINISH" None) coffeeBrewing)
       = (Normal tt, w2)
       /\ currentStateId (this w2) = currentStateId (this coffeeBrewing)
       /\ roundTrip (deref (heap coffeeBrewing) (context (this coffeeBrewing)))
          = Normal (deref (heap w2) (context (this w2)))
       /\ (isJson (deref (heap coffeeBrewing) (context (this coffeeBrewing))) = true ->
           deref (heap w2) (context (this w2))
           = deref (heap coffeeBrewing) (context (this coffeeBrewing)))
       /\ List.length (heap (run (send sampleActions "10:00:02" "FINISH" None)
                                 coffeeBrewing))
          <= context (this w2)
       /\ previousStateId (this w2) = previousStateId (this coffeeBrewing)
       /\ history (this (run (send sampleActions "10:00:02" "FINISH" None)
                             coffeeBrewing))
          = (history (this w2) ++ [top])%list
       /\ history (this w2) = history (this coffeeBrewing).
Proof.
  apply (proj1 (undo_inverts_send sampleActions coffeeBrewing
                  coffeeBrewing_reachable)
               "10:00:02" "FINISH" None).
  - exact coffeeBrewing_aligned.
  - vm_compute. reflexivity.
Defined.

(** ** The diagram *)

Lemma append_assoc (a b c : string) : (a ++ b) ++ c = a ++ (b ++ c).
Proof. induction a as [|ch a IH]; cbn; [reflexivity|now rewrite IH]. Qed.

Lemma append_nil_r (a : string) : a ++ EmptyString = a.
Proof. induction a as [|ch a IH]; cbn; [reflexivity|now rewrite IH]. Qed.

Lemma append_length (a b : string) :
  String.length (a ++ b) = String.length a + String.length b.
Proof. induction a as [|ch a IH]; cbn; [reflexivity|now rewrite IH]. Qed.

Lemma joinAll_app (l1 l2 : list string) :
  joinAll (l1 ++ l2) = joinAll l1 ++ joinAll l2.
Proof.
  induction l1 as [|a l1 IH]; [reflexivity|].
  change (joinAll ((a :: l1) ++ l2)) with (a ++ joinAll (l1 ++ l2)).
  change (joinAll (a :: l1)) with (a ++ joinAll l1).
  now rewrite IH, append_assoc.
Qed.

Lemma scan_app (e : Engine) (l1 l2 : list edge) (i a : Z) :
  scan e (l1 ++ l2) i a
  = scan e l2 (i + Z.of_nat (List.length l1))%Z (scan e l1 i a).
Proof.
  revert i a. induction l1 as [|x l1 IH]; intros i a; cbn [app scan List.length].
  - now rewrite Z.add_0_r.
  - rewrite IH. f_equal. lia.
Qed.

Lemma scan_inactive (e : Engine) (l : list edge) (i a : Z) :
  (forall x, In x l -> isActive e x = false) -> scan e l i a = a.
Proof.
  revert i a. induction l as [|x l IH]; intros i a H; cbn [scan]; [reflexivity|].
  rewrite (H x) by now left. apply IH. intros y Hy. apply H. now right.
Qed.

Lemma scan_found (e : Engine) (pre post : list edge) (x : edge) (i a : Z) :
  isActive e x = true ->
  (forall y, In y post -> isActive e y = false) ->
  scan e (pre ++ x :: post) i a = (i + Z.of_nat (List.length pre))%Z.
Proof.
  intros Hx Hpost. rewrite scan_app. cbn [scan]. rewrite Hx.
  now apply scan_inactive.
Qed.

(** [a || b] shows [a] unless it is missing or empty. *)
Lemma orElse_shown (o : option string) (d : string) : orElse o d = shown o d.
Proof. destruct o as [[|ch s]|]; reflexivity. Qed.

(** The lines the embedding writes are those of the description. *)
Lemma nodeStep_text (e : Engine) (m : string) (sd : string * StateDef) :
  nodeStep e m sd = m ++ nodeText e sd.
Proof.
  destruct sd as [id data].
  unfold nodeStep, nodeText, emphasis, nodeDecl, classLine. cbn [fst snd].
  rewrite orElse_shown.
  destruct (strictEq id (currentStateId e));
    [|destruct (strictEq id (previousStateId e))];
    rewrite ?append_assoc, ?append_nil_r; reflexivity.
Qed.

Lemma edgeLine_text (s ev : string) (t : TransitionDef) :
  edgeLine s ev t = edgeText (s, ev, t).
Proof.
  unfold edgeLine, edgeText, showField. cbn [fst snd]. rewrite orElse_shown.
  reflexivity.
Qed.

Lemma linkStyle_directive (k : nat) : linkStyle (Z.of_nat k) = styleDirective k.
Proof. reflexivity. Qed.

(** A numeral denotes the number it was written for. *)
Lemma numeral_number (k : nat) : numberOf (numeral k) = Some (Z.of_nat k).
Proof.
  unfold numberOf, numeral. rewrite NilZero.isi.
  - cbn [option_map]. now rewrite DecimalZ.of_to.
  - destruct (Z.of_nat k) as [|p|p]; cbn; try discriminate.
    intros E. injection E as E.
    exact (DecimalPos.Unsigned.to_uint_nonnil p E).
  - destruct (Z.of_nat k) as [|p|p]; cbn; try discriminate.
    intros E. injection E as E.
    exact (DecimalPos.Unsigned.to_uint_nonnil p E).
Qed.

Lemma fold_nodeStep (e : Engine) (sts : list (string * StateDef)) (m : string) :
  fold_left (nodeStep e) sts m = m ++ joinAll (map (nodeText e) sts).
Proof.
  revert m. induction sts as [|sd sts IH]; intros m; cbn [fold_left map joinAll fold_right].
  - now rewrite append_nil_r.
  - rewrite IH, nodeStep_text, append_assoc. reflexivity.
Qed.

Lemma fold_edgeStep (e : Engine) (sourceId : string)
    (ts : list (string * TransitionDef)) (m : string) (i a : Z) :
  let edges := map (fun et => (sourceId, fst et, snd et)) ts in
  fold_left (edgeStep e sourceId) ts (m, i, a)
  = (m ++ joinAll (map edgeText edges),
     (i + Z.of_nat (List.length edges))%Z,
     scan e edges i a).
Proof.
  cbv zeta. revert m i a.
  induction ts as [|[ev t] ts IH]; intros m i a.
  - cbn. now rewrite append_nil_r, Z.add_0_r.
  - cbn [fold_left map]. unfold edgeStep at 2. rewrite IH.
    cbn [List.length scan joinAll fold_right fst snd].
    unfold isActive. cbn [fst snd]. rewrite edgeLine_text.
    rewrite append_assoc. f_equal. f_equal. lia.
Qed.

(** The edges of the states of a list, in the order of the list. *)
Lemma fold_stateEdges (e : Engine) (sts : list (string * StateDef))
    (m : string) (i a : Z) :
  let edges := flat_map (fun sd => edgesFrom (fst sd) (snd sd)) sts in
  fold_left (stateEdges e) sts (m, i, a)
  = (m ++ joinAll (map edgeText edges),
     (i + Z.of_nat (List.length edges))%Z,
     scan e edges i a).
Proof.
  cbv zeta. revert m i a. induction sts as [|[s d] sts IH]; intros m i a.
  - cbn. now rewrite append_nil_r, Z.add_0_r.
  - cbn [fold_left]. unfold stateEdges at 2.
    assert (E : match on d with
                | Some transitions =>
                    fold_left (edgeStep e s) (ownEntries transitions) (m, i, a)
                | None => (m, i, a)
                end
                = (m ++ joinAll (map edgeText (edgesFrom s d)),
                   (i + Z.of_nat (List.length (edgesFrom s d)))%Z,
                   scan e (edgesFrom s d) i a)).
    { unfold edgesFrom. destruct (on d) as [ts|].
      - apply fold_edgeStep.
      - cbn. now rewrite append_nil_r, Z.add_0_r. }
    rewrite E, IH. cbn [flat_map fst snd].
    rewrite map_app, joinAll_app, length_app, scan_app, append_assoc.
    f_equal. f_equal. lia.
Qed.

(** The text [generateMermaid] returns: the body, then the directive if
    [activeEdgeIndex] was set. *)
Lemma generateMermaid_shape (w : World) (c : Config)
    (sts : list (string * StateDef)) :
  config (this w) = Some c ->
  states c = Some sts ->
  generateMermaid w
  = (Normal (let a := scan (this w) (edgesOf sts) 0 (-1) in
             if (a =? -1)%Z then diagramBody (this w) sts
             else diagramBody (this w) sts ++ linkStyle a),
     w).
Proof.
  intros Hc Hs. unfold generateMermaid. rewrite bind_getThis, Hc, Hs.
  unfold entries. rewrite !bind_ret.
  rewrite fold_nodeStep, fold_stateEdges. cbv zeta.
  fold (edgesOf sts). unfold diagramBody.
  change classDefs with diagramHeader. change nl with lineBreak.
  rewrite !append_assoc.
  destruct (scan (this w) (edgesOf sts) 0 (-1) =? -1)%Z; reflexivity.
Qed.

Lemma edgesFrom_source (s : string) (d : StateDef) (x : edge) :
  In x (edgesFrom s d) -> fst (fst x) = s.
Proof.
  unfold edgesFrom. destruct (on d) as [ts|]; [|intros []].
  intros H. apply in_map_iff in H. destruct H as [et [<- _]]. reflexivity.
Qed.

Lemma edgesOf_source (sts : list (string * StateDef)) (x : edge) :
  In x (edgesOf sts) -> In (fst (fst x)) (keys sts).
Proof.
  unfold edgesOf, keys. intros H. apply in_flat_map in H.
  destruct H as [sd [Hsd Hx]]. apply edgesFrom_source in Hx.
  rewrite Hx. apply in_map. now apply ownEntries_In.
Qed.

Lemma edgesFrom_NoDup (s : string) (d : StateDef) :
  match on d with
  | Some transitions => NoDup (keys transitions)
  | None => True
  end ->
  NoDup (map edgeKey (edgesFrom s d)).
Proof.
  unfold edgesFrom. destruct (on d) as [ts|]; [|constructor].
  intros H. apply ownEntries_keys in H. revert H.
  generalize (ownEntries ts). clear ts. intros ts.
  unfold keys. intros H. rewrite map_map. cbn [edgeKey fst].
  induction ts as [|[ev t] ts IH]; cbn [map fst] in *; [constructor|].
  apply NoDup_cons_iff in H. destruct H as [Hn H].
  constructor; [|now apply IH].
  intros I. apply Hn. apply in_map_iff in I. destruct I as [et [E I]].
  injection E as E. rewrite <- E. now apply in_map.
Qed.

Lemma uniqueKeys_ownEntries (sts : list (string * StateDef)) :
  uniqueKeys sts -> uniqueKeys (ownEntries sts).
Proof.
  intros [Hk Ho]. split; [now apply ownEntries_keys|].
  rewrite Forall_forall in *. intros sd I. apply Ho. now apply ownEntries_In.
Qed.

Lemma edgesOf_NoDup (sts : list (string * StateDef)) :
  uniqueKeys sts -> NoDup (map edgeKey (edgesOf sts)).
Proof.
  intros Hu. apply uniqueKeys_ownEntries in Hu. unfold edgesOf.
  revert Hu. generalize (ownEntries sts). clear sts. intros sts [Hk Ho].
  induction sts as [|[s d] sts IH]; [constructor|].
  unfold keys in Hk. cbn [map fst] in Hk.
  apply NoDup_cons_iff in Hk. destruct Hk as [Hs Hk].
  apply Forall_cons_iff in Ho. destruct Ho as [Hd Ho].
  cbn [flat_map fst snd]. rewrite map_app.
  apply NoDup_app.
  - now apply edgesFrom_NoDup.
  - now apply IH.
  - intros k I1 I2.
    apply in_map_iff in I1. destruct I1 as [x [<- I1]].
    apply in_map_iff in I2. destruct I2 as [y [E I2]].
    apply edgesFrom_source in I1. apply in_flat_map in I2.
    destruct I2 as [sd [Isd I2]]. apply edgesFrom_source in I2.
    unfold edgeKey in E. apply Hs. rewrite <- I1, <- E, I2.
    unfold keys. now apply in_map.
Qed.

Lemma isActive_key (e : Engine) (x y : edge) :
  isActive e x = true -> isActive e y = true -> edgeKey x = edgeKey y.
Proof.
  unfold isActive, edgeKey, strictEq, strictEqOpt.
  destruct x as [[s ev] t], y as [[s' ev'] t']. cbn [fst snd].
  destruct (previousStateId e) as [| |p]; try discriminate.
  destruct (lastEventId e) as [l|]; [|rewrite andb_false_r; discriminate].
  intros H1 H2.
  apply andb_true_iff in H1. destruct H1 as [A1 B1].
  apply andb_true_iff in H2. destruct H2 as [A2 B2].
  apply String.eqb_eq in A1, B1, A2, B2. congruence.
Qed.

Lemma styleDirective_not_empty (k : nat) (body : string) :
  body ++ styleDirective k <> body.
Proof.
  intros E. apply (f_equal String.length) in E.
  rewrite append_length in E. unfold styleDirective in E.
  rewrite append_length in E. cbn [String.length] in E. lia.
Qed.

Lemma indexed_written {A : Type} (o : list (string * A)) :
  Forall (fun m => arrayIndex (fst m) = None) o -> indexed o = [].
Proof.
  unfold indexed. induction 1 as [|m o Hm Ho IH]; [reflexivity|].
  cbn [fold_right]. now rewrite Hm.
Qed.

(** Where no key is an array index, [Object.entries] keeps the order in
    which the members were written. *)
Lemma ownEntries_written {A : Type} (o : list (string * A)) :
  Forall (fun m => arrayIndex (fst m) = None) o -> ownEntries o = o.
Proof.
  intros H. unfold ownEntries. rewrite (indexed_written o H). cbn [map app].
  unfold named. induction H as [|m o Hm Ho IH]; [reflexivity|].
  cbn [filter]. rewrite Hm. now rewrite IH.
Qed.

Lemma edgesOf_written (sts : list (string * StateDef)) :
  writtenOrder sts -> edgesOf sts = edgesAsWritten sts.
Proof.
  intros H. unfold edgesOf, edgesAsWritten.
  rewrite ownEntries_written
    by (eapply Forall_impl; [|exact H]; cbn; intros sd [E _]; exact E).
  induction H as [|sd sts [_ Hsd] Hsts IH]; [reflexivity|].
  cbn [flat_map]. rewrite IH. f_equal. unfold edgesFrom.
  destruct (on (snd sd)) as [ts|]; [|reflexivity].
  now rewrite ownEntries_written.
Qed.

Lemma coffeeMachine_uniqueKeys :
  uniqueKeys [ ("idle", mkState (Some "Ready")
                  (Some [("BREW", mkTransition (Some "brewing") None
                                    (Some "context.water -= 10"))]));
               ("brewing", mkState None
                  (Some [("FINISH", mkTransition (Some "idle") None None)])) ].
Proof.
  split.
  - cbn. constructor; [intros [H|[]]; discriminate H|].
    constructor; [intros []|constructor].
  - repeat constructor; cbn; intros [].
Defined.

Lemma numberedMachine_uniqueKeys :
  uniqueKeys [ ("b", mkState None
                  (Some [("X", mkTransition (Some "1") None None)]));
               ("1", mkState None
                  (Some [("Y", mkTransition (Some "b") None None)])) ].
Proof.
  split.
  - cbn. constructor; [intros [H|[]]; discriminate H|].
    constructor; [intros []|constructor].
  - repeat constructor; cbn; intros [].
Qed.

(** C8, as stated, fails: in the numbered machine the edge taken is the
    first as the definition lists them, of index 0; [Object.entries] yields
    the state named [1] before the state named [b], and the directive
    carries the index 1. *)
Lemma highlight_counts_entries : ~ highlightCountsAsWritten.
Proof.
  intros H.
  specialize (H numberedTaken numberedMachine _ 0
                ("b", "X", mkTransition (Some "1") None None)
                eq_refl eq_refl numberedMachine_uniqueKeys eq_refl eq_refl).
  apply (f_equal (fun r => match r with
                           | Normal m => String.get (String.length m - 48) m
                           | Throw _ => None
                           end)) in H.
  vm_compute in H. discriminate H.
Qed.

(** C8, amended. With the transitions of the definition enumerated state
    by state and event by event, both in the order of [Object.entries]
    (each key occurring once in its object, as in any object),
    [generateMermaid] returns the body of the diagram followed by the style
    directive carrying, as a decimal numeral, the zero-based index of the
    edge whose source is [previousStateId] and whose event is
    [lastEventId], when there is such an edge, and the body alone, which is
    a different text, when there is none. Where no state and no event is
    named by an array index, that order is the one in which the definition
    was written. *)
Theorem edge_highlight_index (w : World) (c : Config)
    (sts : list (string * StateDef)) :
  config (this w) = Some c ->
  states c = Some sts ->
  uniqueKeys sts ->
  (forall (k : nat) (x : edge),
      nth_error (edgesOf sts) k = Some x ->
      isActive (this w) x = true ->
      generateMermaid w
      = (Normal (diagramBody (this w) sts ++ styleDirective k), w)
      /\ numberOf (numeral k) = Some (Z.of_nat k)
      /\ diagramBody (this w) sts ++ styleDirective k
         <> diagramBody (this w) sts)
  /\ ((forall x : edge, In x (edgesOf sts) -> isActive (this w) x = false) ->
      generateMermaid w = (Normal (diagramBody (this w) sts), w))
  /\ (writtenOrder sts -> edgesOf sts = edgesAsWritten sts).
Proof.
  intros Hc Hs Hu. pose proof (generateMermaid_shape w c sts Hc Hs) as G.
  cbv zeta in G. split; [|split].
  - intros k x Hk Hx.
    split; [|split; [apply numeral_number|apply styleDirective_not_empty]].
    apply nth_error_split in Hk. destruct Hk as [pre [post [E Hlen]]].
    pose proof (edgesOf_NoDup sts Hu) as Hn. rewrite E in Hn.
    rewrite map_app in Hn. cbn [map] in Hn. apply NoDup_remove_2 in Hn.
    assert (Hpost : forall y, In y post -> isActive (this w) y = false).
    { intros y Iy. destruct (isActive (this w) y) eqn:Hy; [|reflexivity].
      elim Hn. apply in_or_app. right.
      rewrite (isActive_key _ _ _ Hx Hy). now apply in_map. }
    rewrite E, (scan_found _ pre post x 0 (-1) Hx Hpost), Hlen in G.
    cbn [Z.add] in G. rewrite G, linkStyle_directive.
    destruct (Z.eqb_spec (Z.of_nat k) (-1)) as [A|_]; [lia|reflexivity].
  - intros Hnone. rewrite (scan_inactive _ _ 0 (-1) Hnone) in G. exact G.
  - apply edgesOf_written.
Qed.

Lemma edge_highlight_index_witness :
  let sts := [ ("idle", mkState (Some "Ready")
                  (Some [("BREW", mkTransition (Some "brewing") None
                                    (Some "context.water -= 10"))]));
               ("brewing", mkState None
                  (Some [("FINISH", mkTransition (Some "idle") None None)])) ] in
  (forall (k : nat) (x : edge),
      nth_error (edgesOf sts) k = Some x ->
      isActive (this coffeeBrewing) x = true ->
      generateMermaid coffeeBrewing
      = (Normal (diagramBody (this coffeeBrewing) sts ++ styleDirective k),
         coffeeBrewing)
      /\ numberOf (numeral k) = Some (Z.of_nat k)
      /\ diagramBody (this coffeeBrewing) sts ++ styleDirective k
         <> diagramBody (this coffeeBrewing) sts)
  /\ ((forall x : edge, In x (edgesOf sts) ->
                        isActive (this coffeeBrewing) x = false) ->
      generateMermaid coffeeBrewing
      = (Normal (diagramBody (this coffeeBrewing) sts), coffeeBrewing))
  /\ (writtenOrder sts -> edgesOf sts = edgesAsWritten sts).
Proof.
  cbv zeta.
  apply (edge_highlight_index coffeeBrewing coffeeMachine).
  - vm_compute. reflexivity.
  - reflexivity.
  - exact coffeeMachine_uniqueKeys.
Defined.

(** The edge taken by [BREW] is the first in the enumeration and the diagram
    of the brewing machine ends with the directive for index 0; in the
    numbered machine the directive is the one for index 1. *)
Example coffeeBrewing_highlight :
  result generateMermaid coffeeBrewing
  = Normal (diagramBody (this coffeeBrewing)
              (match states coffeeMachine with Some sts => sts | None => [] end)
            ++ "    linkStyle 0 stroke:#6366f1,stroke-width:4px,color:#6366f1"
            ++ lineBreak)
  /\ result generateMermaid numberedTaken
     = Normal (diagramBody (this numberedTaken)
                 (match states numberedMachine with Some sts => sts | None => [] end)
               ++ "    linkStyle 1 stroke:#6366f1,stroke-width:4px,color:#6366f1"
               ++ lineBreak).
Proof. split; vm_compute; reflexivity. Qed.

(** ** The class of a node *)






(** The diagram of the loop machine after its transition, in full. *)
Example loopTaken_diagram :
  result generateMermaid loopTaken
  = Normal ("flowchart LR" ++ lineBreak
      ++ "    classDef current fill:#6366f1,stroke:#fff,stroke-width:2px,color:#fff"
      ++ lineBreak
      ++ "    classDef previous fill:#10b981,stroke:#fff,stroke-width:1px,color:#fff"
      ++ lineBreak ++ lineBreak
      ++ "    a(" ++ quote ++ "a" ++ quote ++ ")" ++ lineBreak
      ++ "    class a current" ++ lineBreak
      ++ lineBreak
      ++ "    a -->|" ++ quote ++ "AGAIN" ++ quote ++ "| a" ++ lineBreak
      ++ "    linkStyle 0 stroke:#6366f1,stroke-width:4px,color:#6366f1"
      ++ lineBreak).
Proof. vm_compute. reflexivity. Qed.

(** ** Aliasing of contexts *)

(** C2, as stated, fails: after [load] of the coffee machine, assigning
    through the [context] of the projection empties the tank of the engine
    itself. *)
Lemma projection_context_is_live : ~ projectionContextIsCopy sampleActions.
Proof.
  intros H.
  assert (E : exists p, result getState coffeeLoaded = Normal p
                        /\ p_context p = 1).
  { eexists. split; [vm_compute; reflexivity|reflexivity]. }
  destruct E as [p [Hp Hc]].
  specialize (H coffeeLoaded p (VObj [("water", VNum 0)])
                coffeeLoaded_reachable Hp).
  rewrite Hc in H. vm_compute in H. discriminate H.
Qed.

(** C2, amended. As long as callers have neither assigned into the context
    and input objects of the history entries nor handed one of them back as
    the input of [send], the live context and the context and input objects
    of the history entries are pairwise distinct objects of the store, and
    the objects of the entries hold JSON values: assigning into one of them
    changes no other, so no entry shares anything with the live context or
    with another entry, and assigning into the snapshot of an entry leaves
    the live context alone. The projection of [getState()] is not a copy:
    its [context] is the live context object and its [history] holds the
    entries of the engine. *)
Theorem history_snapshots_independent
    (evalAction : interpreter) (w : World) :
  reachable evalAction w ->
  NoDup (objects w)
  /\ (forall (l l' : loc) (v : value),
         In l (objects w) -> In l' (objects w) -> l <> l' ->
         deref (heap (mutate l v w)) l' = deref (heap w) l'
         /\ deref (heap (mutate l v w)) l = v)
  /\ (forall (en : HistoryEntry) (v : value),
         In en (history (this w)) ->
         deref (heap (mutate (entryContext en) v w)) (context (this w))
         = deref (heap w) (context (this w)))
  /\ (forall en : HistoryEntry,
         In en (history (this w)) ->
         isJson (deref (heap w) (entryContext en)) = true
         /\ isJson (deref (heap w) (entryInput en)) = true)
  /\ (forall p : Projection,
         result getState w = Normal p ->
         p_context p = context (this w) /\ p_history p = history (this w)).
Proof.
  intros Hr. pose proof (reachable_consistent _ _ Hr) as [Hl Hb Hn Hj _].
  split; [exact Hn|]. split; [|split; [|split]].
  - intros l l' v Il Il' Hne. cbn [mutate heap]. split.
    + now apply deref_update_other.
    + apply deref_update_same. rewrite Forall_forall in Hb. now apply Hb.
  - intros en v Ien. cbn [mutate heap]. apply deref_update_other.
    unfold objects in Hn. apply NoDup_cons_iff in Hn. destruct Hn as [Hn _].
    intros E. apply Hn. rewrite <- E. apply in_flat_map.
    exists en. split; [exact Ien|]. left. reflexivity.
  - intros en Ien. rewrite Forall_forall in Hj. split; apply Hj; apply in_flat_map;
      exists en; (split; [exact Ien|]); [left|right; left]; reflexivity.
  - intros p Hp. unfold result in Hp. rewrite getState_run in Hp.
    cbn [fst] in Hp.
    destruct (projectionOf_wellLoaded _ Hl) as [p' [Hp' [_ [Hc Hh]]]].
    rewrite Hp' in Hp. injection Hp as <-. now split.
Qed.

Lemma history_snapshots_independent_witness :
  NoDup (objects coffeeBrewing)
  /\ (forall (l l' : loc) (v : value),
         In l (objects coffeeBrewing) -> In l' (objects coffeeBrewing) -> l <> l' ->
         deref (heap (mutate l v coffeeBrewing)) l' = deref (heap coffeeBrewing) l'
         /\ deref (heap (mutate l v coffeeBrewing)) l = v)
  /\ (forall (en : HistoryEntry) (v : value),
         In en (history (this coffeeBrewing)) ->
         deref (heap (mutate (entryContext en) v coffeeBrewing))
               (context (this coffeeBrewing))
         = deref (heap coffeeBrewing) (context (this coffeeBrewing)))
  /\ (forall en : HistoryEntry,
         In en (history (this coffeeBrewing)) ->
         isJson (deref (heap coffeeBrewing) (entryContext en)) = true
         /\ isJson (deref (heap coffeeBrewing) (entryInput en)) = true)
  /\ (forall p : Projection,
         result getState coffeeBrewing = Normal p ->
         p_context p = context (this coffeeBrewing)
         /\ p_history p = history (this coffeeBrewing)).
Proof.
  apply (history_snapshots_independent sampleActions coffeeBrewing).
  unfold coffeeBrewing, coffeeLoaded, loaded.
  apply reach_send, reach_load, reach_subscribe, reach_new.
Defined.

(** What the proviso on callers leaves out. [send] stores the object its
    action returns as it is: when a caller hands the context object of a
    history entry back as input and the action returns its input, the live
    context is that very object, and an entry shares it. *)
Lemma snapshot_handed_back_is_shared :
  exists (first : HistoryEntry) (w' : World),
    history (this (loaded adoptingMachine)) = [first]
    /\ sendWith sampleActions "10:00:01" "BREW" (Held (entryContext first))
                (loaded adoptingMachine)
       = (Normal STrue, w')
    /\ context (this w') = entryContext first
    /\ In first (history (this w'))
    /\ ~ NoDup (objects w').
Proof.
  do 2 eexists. split; [vm_compute; reflexivity|].
  split; [vm_compute; reflexivity|]. split; [reflexivity|].
  split; [left; reflexivity|].
  intros N. apply NoDup_cons_iff in N. destruct N as [N _]. apply N.
  left. reflexivity.
Qed.

(** When the action writes into the input it was handed, the entry records
    the input as the action left it, not as the caller passed it. *)
Lemma input_recorded_after_action :
  exists (w' : World) (top : HistoryEntry),
    send sampleActions "10:00:01" "BREW" (Some (JObj [])) (loaded markingMachine)
    = (Normal STrue, w')
    /\ history (this w') = (history (this (loaded markingMachine)) ++ [top])%list
    /\ deref (heap w') (entryInput top) = VObj [("seen", VBool true)].
Proof.
  do 2 eexists. split; [vm_compute; reflexivity|]. split; reflexivity.
Qed.

(** * Further properties of the engine *)

(** An event that is neither a key of the [on] mapping of the current state
    nor the name of a member of [Object.prototype] is refused, and nothing
    changes. *)
Lemma send_unknown_event_refused
    (evalAction : interpreter)
    (now eventId : string) (input : option json) (w : World) (c : Config)
    (sts : list (string * StateDef)) (data : StateDef)
    (transitions : list (string * TransitionDef)) :
  config (this w) = Some c ->
  states c = Some sts ->
  getProp sts (toPropertyKey (currentStateId (this w))) = Own data ->
  on data = Some transitions ->
  ~ In eventId (keys transitions) ->
  inherited eventId = false ->
  send evalAction now eventId input w = (Normal SFalse, w).
Proof.
  intros Hc Hs Hd Ho Hk Hi. apply send_no_transition.
  unfold result, lookupTransition. rewrite bind_getThis, Hc, bind_ret, Hs.
  unfold index at 1. rewrite bind_ret, Hd, Ho. cbn [index ret fst].
  f_equal. apply getProp_Absent. now split.
Qed.

(** When the lookup finds something, [send] does not answer [false]. *)
Lemma send_found_not_false
    (evalAction : interpreter)
    (now eventId : string) (input : option json) (w : World)
    (tr : property TransitionDef) :
  result (lookupTransition eventId) w = Normal tr ->
  tr <> Absent ->
  result (send evalAction now eventId input) w <> Normal SFalse.
Proof.
  intros Hl NA. pose proof (send_run evalAction now eventId input w) as R.
  rewrite Hl in R. unfold result.
  assert (G :
    match runnable tr with
    | Some code =>
        match evalAction code with
        | Rejected message =>
            send evalAction now eventId input w
            = (Normal (SError (VStr message)), w)
        | Compiled actionFn =>
            match roundTrip (deref (heap w) (context (this w))) with
            | Throw ex =>
                send evalAction now eventId input w
                = (Normal (SError (VStr (messageText ex))), w)
            | Normal copy =>
                match actionFn now copy (defaultInput input) with
                | Threw input' thrown =>
                    send evalAction now eventId input w
                    = (match messageOf thrown with
                       | Normal message => Normal (SError message)
                       | Throw ex => Throw ex
                       end, w)
                | Returned copy' input' r =>
                    send evalAction now eventId input w
                    = move now eventId input' tr
                           (installed w (contentOf r copy' input'))
                end
            end
        end
    | None =>
        send evalAction now eventId input w
        = move now eventId (defaultInput input) tr w
    end) by (destruct tr; [exact R|exact R|now elim NA]).
  clear R. pose proof (lookupTransition_wellLoaded _ _ _ Hl) as Hw.
  assert (Mv : forall (w0 : World) (i0 : value),
             wellLoaded (this w0) ->
             fst (move now eventId i0 tr w0) <> Normal SFalse).
  { intros w0 i0 W0. pose proof (move_run now eventId i0 tr w0 W0) as Mr.
    destruct (roundTrip (deref (heap w0) (context (this w0)))) as [c|ex].
    - destruct (roundTrip i0) as [i|ex].
      + destruct Mr as [ps Mr]. rewrite Mr. discriminate.
      + rewrite Mr. discriminate.
    - rewrite Mr. discriminate. }
  destruct (runnable tr) as [code|].
  - destruct (evalAction code) as [message|actionFn]; [rewrite G; discriminate|].
    destruct (roundTrip (deref (heap w) (context (this w)))) as [copy|ex];
      [|rewrite G; discriminate].
    destruct (actionFn now copy (defaultInput input))
      as [copy' input' r'|input' thrown].
    + rewrite G. now apply Mv.
    + rewrite G. destruct (messageOf thrown); discriminate.
  - rewrite G. now apply Mv.
Qed.

(** ** Deliveries *)







(** ** More on lookups, the store and the diagram *)

Lemma own_In {A : Type} (o : list (string * A)) (key : string) (a : A) :
  own o key = Some a -> In (key, a) o.
Proof.
  induction o as [|[k x] o IH]; cbn [own]; [discriminate|].
  destruct (String.eqb_spec k key) as [->|_].
  - intros E. injection E as ->. now left.
  - intros E. right. now apply IH.
Qed.

Lemma In_keys_own {A : Type} (o : list (string * A)) (key : string) :
  In key (keys o) -> exists a, own o key = Some a.
Proof.
  intros H. destruct (own o key) as [a|] eqn:E; [now exists a|].
  apply own_None_not_key in E. now elim E.
Qed.

Lemma projection_events (e : Engine) (p : Projection) :
  projectionOf e = Normal p ->
  match config e with
  | None => p_availableEvents p = Some []
  | Some c =>
      exists sts,
        states c = Some sts
        /\ p_data p = Some (getProp sts (toPropertyKey (currentStateId e)))
        /\ p_availableEvents p
           = match getProp sts (toPropertyKey (currentStateId e)) with
             | Own data => on data
             | Inherited _ => None
             | Absent => Some []
             end
  end.
Proof.
  unfold projectionOf, result, getState. rewrite bind_getThis. cbn [this].
  destruct (config e) as [c|]; [destruct (states c) as [sts|]|];
    unfold index, bind, ret, throw; try discriminate;
    rewrite generateMermaid_run; cbn [fst snd];
    destruct (mermaidOf _); try discriminate; intros E; injection E as <-.
  - exists sts. repeat split.
  - reflexivity.
Qed.

(** What [send] keeps whatever it does, and what it does to the store. *)
Lemma send_keeps
    (evalAction : interpreter)
    (now eventId : string) (input : option json) (w : World) :
  config (this (run (send evalAction now eventId input) w)) = config (this w)
  /\ listeners (this (run (send evalAction now eventId input) w))
     = listeners (this w)
  /\ exists ext,
       heap (run (send evalAction now eventId input) w) = (heap w ++ ext)%list.
Proof.
  pose proof (send_shape evalAction now eventId input w) as S.
  destruct S as [r N|tr w0 input' ex Hl NA A Ec|tr w0 input' c ex Hl NA A Ec Ei
                 |tr w0 input' c i ps Hl NA A Ec Ei].
  - repeat split. exists []. now rewrite app_nil_r.
  - destruct (atMove_live _ _ _ _ _ _ _ A)
      as [_ [Hc [_ [_ [_ [Hls [_ [ext Hext]]]]]]]].
    cbn [halfMoved this heap config listeners]. repeat split; try assumption.
    now exists ext.
  - destruct (atMove_live _ _ _ _ _ _ _ A)
      as [_ [Hc [_ [_ [_ [Hls [_ [ext Hext]]]]]]]].
    cbn [halfMoved this heap config listeners]. repeat split; try assumption.
    rewrite Hext, <- app_assoc. eexists. reflexivity.
  - destruct (atMove_live _ _ _ _ _ _ _ A)
      as [_ [Hc [_ [_ [_ [Hls [_ [ext Hext]]]]]]]].
    cbn [afterMove this heap config listeners]. repeat split; try assumption.
    rewrite Hext, <- !app_assoc. eexists. reflexivity.
Qed.



Lemma isActive_without_previous (e : Engine) (x : edge) :
  (forall s, previousStateId e <> Id s) \/ lastEventId e = None ->
  isActive e x = false.
Proof.
  unfold isActive, strictEq, strictEqOpt. intros [H|H].
  - destruct (previousStateId e) as [| |s]; try reflexivity.
    now elim (H s).
  - rewrite H. apply andb_false_r.
Qed.

(** [activeEdgeIndex] ends as it started, no edge matching, or on the last
    edge that matches. *)
Lemma scan_last (e : Engine) (edges : list edge) (i a : Z) :
  (scan e edges i a = a /\ forall x, In x edges -> isActive e x = false)
  \/ exists k x,
       nth_error edges k = Some x
       /\ isActive e x = true
       /\ (forall j y, k < j -> nth_error edges j = Some y -> isActive e y = false)
       /\ scan e edges i a = (i + Z.of_nat k)%Z.
Proof.
  revert i a. induction edges as [|x rest IH]; intros i a.
  - left. split; [reflexivity|intros x []].
  - cbn [scan].
    destruct (IH (i + 1)%Z (if isActive e x then i else a))
      as [[E Hin]|[k [y [Hk [Hy [Hlater E]]]]]].
    + destruct (isActive e x) eqn:Hx.
      * right. exists 0, x. split; [reflexivity|]. split; [exact Hx|]. split.
        -- intros j y Hj Hy. destruct j; [lia|].
           apply Hin. eapply nth_error_In. exact Hy.
        -- rewrite E. lia.
      * left. split; [exact E|]. intros y [<-|Hy]; [exact Hx|now apply Hin].
    + right. exists (S k), y. split; [exact Hk|]. split; [exact Hy|]. split.
      * intros j z Hj Hz. destruct j; [lia|]. apply (Hlater j z); [lia|exact Hz].
      * rewrite E. lia.
Qed.

Lemma highlight_unique (e : Engine) (sts : list (string * StateDef))
    (k : nat) (x : edge) :
  uniqueKeys sts ->
  nth_error (edgesOf sts) k = Some x ->
  isActive e x = true ->
  scan e (edgesOf sts) 0 (-1) = Z.of_nat k.
Proof.
  intros Hu Hk Hx.
  apply nth_error_split in Hk. destruct Hk as [pre [post [E Hlen]]].
  pose proof (edgesOf_NoDup sts Hu) as Hn. rewrite E in Hn.
  rewrite map_app in Hn. cbn [map] in Hn. apply NoDup_remove_2 in Hn.
  assert (Hpost : forall y, In y post -> isActive e y = false).
  { intros y Iy. destruct (isActive e y) eqn:Hy; [|reflexivity].
    elim Hn. apply in_or_app. right.
    rewrite (isActive_key _ _ _ Hx Hy). now apply in_map. }
  rewrite E, (scan_found _ pre post x 0 (-1) Hx Hpost), Hlen. reflexivity.
Qed.

Lemma edge_of_own (sts : list (string * StateDef)) (s eventId : string)
    (data : StateDef) (transitions : list (string * TransitionDef))
    (t : TransitionDef) :
  own sts s = Some data ->
  on data = Some transitions ->
  own transitions eventId = Some t ->
  In (s, eventId, t) (edgesOf sts).
Proof.
  intros Hs Ho Ht. unfold edgesOf. apply in_flat_map.
  exists (s, data). split; [now apply ownEntries_In, own_In|].
  cbn [fst snd]. unfold edgesFrom. rewrite Ho.
  apply in_map_iff. exists (eventId, t).
  split; [reflexivity|now apply ownEntries_In, own_In].
Qed.

(** ** What is observed *)

Lemma observeEntry_ext (h ext : store) (en : HistoryEntry) :
  entryContext en < List.length h -> entryInput en < List.length h ->
  observeEntry (h ++ ext)%list en = observeEntry h en.
Proof.
  intros Hc Hi. unfold observeEntry. now rewrite !deref_old.
Qed.


(** In a world the engine can be in, every method but [send] returns. *)
Lemma only_send_throws (evalAction : interpreter) (w : World) :
  reachable evalAction w ->
  (forall now cfg, exists w', load now cfg w = (Normal tt, w'))
  /\ (forall now, exists w', reset now w = (Normal tt, w'))
  /\ (exists w', undo w = (Normal tt, w'))
  /\ (forall fn, exists w', subscribe fn w = (Normal tt, w'))
  /\ (exists p, getState w = (Normal p, w))
  /\ (exists m, generateMermaid w = (Normal m, w)).
Proof.
  intros Hr. pose proof (reachable_consistent _ _ Hr) as Hc.
  pose proof (cons_loaded _ Hc) as Hl.
  assert (Hload : forall now c, states c <> None ->
                                exists w', load now (Some c) w = (Normal tt, w')).
  { intros now c Hs. destruct (states c) as [sts|] eqn:E; [|now elim Hs].
    destruct (load_run now c sts w E) as [ps H]. eexists. exact H. }
  repeat split.
  - intros now [c|]; [|eexists; reflexivity].
    destruct (states c) as [sts|] eqn:E.
    + apply Hload. rewrite E. discriminate.
    + unfold load. rewrite E. eexists. reflexivity.
  - intros now. unfold reset. rewrite bind_getThis.
    unfold wellLoaded in Hl.
    destruct (config (this w)) as [c|]; [now apply Hload|eexists; reflexivity].
  - destruct (history_two_or_short (history (this w))) as [H|[hs [r [t H]]]].
    + eexists. now apply undo_noop.
    + destruct (undo_run w hs r t H Hl (restored_json _ _ _ _ Hc H)) as [ps E].
      eexists. exact E.
  - intros fn. eexists. reflexivity.
  - destruct (projectionOf_wellLoaded _ Hl) as [p [Hp _]].
    exists p. now rewrite getState_run, Hp.
  - destruct (mermaidOf_wellLoaded _ Hl) as [m Hm].
    exists m. now rewrite generateMermaid_run, Hm.
Qed.

(** ** [load] and [reset] *)

(** X1. [load] leaves the world exactly as it was, nothing recorded and
    nobody notified, if and only if it was given no definition or one
    without [states]. *)
Theorem load_unchanged_iff_invalid (now : string) (cfg : option Config)
    (w : World) :
  load now cfg w = (Normal tt, w)
  <-> match cfg with
      | Some c => states c = None
      | None => True
      end.
Proof.
  destruct cfg as [c|]; [|split; [trivial|reflexivity]].
  destruct (states c) as [sts|] eqn:Es.
  - split; [|discriminate]. intros H.
    destruct (load_run now c sts w Es) as [ps E]. cbv zeta in E.
    rewrite E in H. injection H as H. apply (f_equal heap) in H.
    cbn [heap] in H. apply (f_equal (@List.length _)) in H.
    rewrite !last_length in H. lia.
  - split; [reflexivity|]. intros _. unfold load. now rewrite Es.
Qed.



(** ** [replay] *)

(** X5. On an engine without a definition, a replay of nothing does
    nothing, and a replay of anything else fails on its first [send] with
    the [TypeError] of reading [states] of [null], the world unchanged. *)
Theorem replay_without_definition
    (evalAction : interpreter)
    (now : string) (w : World) :
  config (this w) = None ->
  replay evalAction now [] w = (Normal tt, w)
  /\ forall (item : ReplayItem) (rest : list ReplayItem),
       replay evalAction now (item :: rest) w
       = (Throw (TypeError "Cannot read properties of null (reading 'states')"),
          w).
Proof.
  intros Hcfg.
  assert (E : reset now w = (Normal tt, w)).
  { unfold reset. rewrite bind_getThis, Hcfg. reflexivity. }
  split.
  - unfold replay, bind. rewrite E. reflexivity.
  - intros item rest. unfold replay, bind at 1. rewrite E.
    cbn [replayLoop]. unfold bind at 1.
    rewrite (send_lookup_throws evalAction (itemNow item) (itemEvent item)
               (itemInput item) w
               (TypeError "Cannot read properties of null (reading 'states')")).
    + reflexivity.
    + unfold result, lookupTransition. rewrite bind_getThis, Hcfg. reflexivity.
Qed.

Lemma replay_without_definition_witness :
  replay sampleActions "10:00:04" [] newEngine = (Normal tt, newEngine)
  /\ forall (item : ReplayItem) (rest : list ReplayItem),
       replay sampleActions "10:00:04" (item :: rest) newEngine
       = (Throw (TypeError "Cannot read properties of null (reading 'states')"),
          newEngine).
Proof.
  apply (replay_without_definition sampleActions "10:00:04" newEngine).
  reflexivity.
Defined.

(** ** [send] *)



(** ** Subscribers *)



(** X8. Subscribers are never dropped: [load], [reset], [send] and [undo]
    leave the list of subscribers as it is, and [subscribe] adds its
    argument at the end, whether or not it is there already. *)
Theorem subscribers_kept
    (evalAction : interpreter) (w : World) :
  reachable evalAction w ->
  (forall now cfg, listeners (this (run (load now cfg) w)) = listeners (this w))
  /\ (forall now, listeners (this (run (reset now) w)) = listeners (this w))
  /\ (forall now eventId input,
         listeners (this (run (send evalAction now eventId input) w))
         = listeners (this w))
  /\ listeners (this (run undo w)) = listeners (this w)
  /\ (forall fn,
         listeners (this (run (subscribe fn) w)) = (listeners (this w) ++ [fn])%list).
Proof.
  intros Hr. pose proof (reachable_consistent _ _ Hr) as Hc.
  assert (L : forall now cfg,
             listeners (this (run (load now cfg) w)) = listeners (this w)).
  { intros now [c|]; [|reflexivity].
    destruct (states c) as [sts|] eqn:Es.
    - destruct (load_run now c sts w Es) as [ps H]. cbv zeta in H.
      unfold run. now rewrite H.
    - unfold run, load. now rewrite Es. }
  split; [exact L|]. split; [|split; [|split]].
  - intros now. unfold run, reset. rewrite bind_getThis.
    destruct (config (this w)) as [c|]; [apply (L now (Some c))|reflexivity].
  - intros now eventId input. apply send_keeps.
  - unfold run.
    destruct (history_two_or_short (history (this w))) as [H|[hs [r [t H]]]].
    + now rewrite undo_noop.
    + destruct (undo_run w hs r t H (cons_loaded _ Hc)
                  (restored_json _ _ _ _ Hc H)) as [ps E].
      now rewrite E.
  - reflexivity.
Qed.

Lemma subscribers_kept_witness :
  (forall now cfg,
      listeners (this (run (load now cfg) coffeeBrewing))
      = listeners (this coffeeBrewing))
  /\ (forall now,
         listeners (this (run (reset now) coffeeBrewing))
         = listeners (this coffeeBrewing))
  /\ (forall now eventId input,
         listeners (this (run (send sampleActions now eventId input) coffeeBrewing))
         = listeners (this coffeeBrewing))
  /\ listeners (this (run undo coffeeBrewing)) = listeners (this coffeeBrewing)
  /\ (forall fn,
         listeners (this (run (subscribe fn) coffeeBrewing))
         = (listeners (this coffeeBrewing) ++ [fn])%list).
Proof.
  apply (subscribers_kept sampleActions coffeeBrewing).
  unfold coffeeBrewing, coffeeLoaded, loaded.
  apply reach_send, reach_load, reach_subscribe, reach_new.
Defined.

(** ** The history *)

(** X9. While the engine holds a definition, the history is never empty
    and its first entry is the one [load] wrote: marked ["Initial State"],
    in the initial state, with the initial context and an empty input. No
    [send] or [undo] ever removes or alters it. *)
Theorem history_rooted
    (evalAction : interpreter) (c : Config)
    (w : World) :
  reachable evalAction w ->
  config (this w) = Some c ->
  exists first rest,
    history (this w) = first :: rest
    /\ event first = "Initial State"
    /\ state first = ofField (initialState c)
    /\ deref (heap w) (entryContext first) = contextOf c
    /\ deref (heap w) (entryInput first) = JObj [].
Proof.
  intros Hr Hcfg. pose proof (reachable_consistent _ _ Hr) as Hc.
  exact (cons_rooted _ Hc c Hcfg).
Qed.

Lemma history_rooted_witness :
  exists first rest,
    history (this coffeeBrewing) = first :: rest
    /\ event first = "Initial State"
    /\ state first = ofField (initialState coffeeMachine)
    /\ deref (heap coffeeBrewing) (entryContext first) = contextOf coffeeMachine
    /\ deref (heap coffeeBrewing) (entryInput first) = JObj [].
Proof.
  apply (history_rooted sampleActions coffeeMachine coffeeBrewing).
  - unfold coffeeBrewing, coffeeLoaded, loaded.
    apply reach_send, reach_load, reach_subscribe, reach_new.
  - vm_compute. reflexivity.
Defined.

(** The forgetful machine after its [send]: the fields name the state
    [brewing] while the tail of the history records [idle]. *)
Lemma forgetful_not_aligned :
  ~ aligned (run (send sampleActions "10:00:01" "BREW" None)
                 (loaded forgetfulMachine)).
Proof.
  intros [hs [en [Hh [Hs _]]]].
  assert (E : history (this (run (send sampleActions "10:00:01" "BREW" None)
                                 (loaded forgetfulMachine)))
              = ([] ++ [mkEntry "10:00:00" (Id "idle") "Initial State" 2 3])%list)
    by (vm_compute; reflexivity).
  rewrite E in Hh. apply app_inj_tail in Hh. destruct Hh as [_ <-].
  vm_compute in Hs. discriminate Hs.
Qed.

(** X11. The fields of the engine agree with the tail of the history
    ([currentStateId] is the state of the last entry, the context recorded
    there is the JSON copy of the live context, [previousStateId] is the
    state of the entry before it, [null] if there is none, and
    [lastEventId] is the event of the last entry, or [null] with the last
    entry marked ["Initial State"]) after [load] of a definition with
    [states], after [reset] of an engine that holds a definition, and after
    an [undo] that has something to undo, however the fields were before; a
    [send] that answers [true] keeps that agreement. *)
Theorem fields_agree_with_tail
    (evalAction : interpreter) (w : World) :
  reachable evalAction w ->
  (forall (now : string) (c : Config),
      states c <> None -> aligned (run (load now (Some c)) w))
  /\ (forall now : string,
         config (this w) <> None -> aligned (run (reset now) w))
  /\ (2 <= List.length (history (this w)) -> aligned (run undo w))
  /\ (forall (now eventId : string) (input : option json) (w' : World),
         aligned w ->
         send evalAction now eventId input w = (Normal STrue, w') ->
         aligned w').
Proof.
  intros Hr. pose proof (reachable_consistent _ _ Hr) as Hc.
  split; [|split; [|split]].
  - intros now c. apply aligned_load.
  - intros now Hcfg. unfold run, reset. rewrite bind_getThis.
    pose proof (cons_loaded _ Hc) as Hl. unfold wellLoaded in Hl.
    destruct (config (this w)) as [c|]; [|now elim Hcfg].
    now apply (aligned_load now c w).
  - intros H2.
    destruct (history_two_or_short (history (this w))) as [H|[hs [r [t H]]]];
      [lia|].
    exact (aligned_undo w hs r t Hc H).
  - intros now eventId input w'. apply aligned_send.
Qed.

Lemma fields_agree_with_tail_witness :
  (forall (now : string) (c : Config),
      states c <> None -> aligned (run (load now (Some c)) coffeeBrewing))
  /\ (forall now : string,
         config (this coffeeBrewing) <> None ->
         aligned (run (reset now) coffeeBrewing))
  /\ (2 <= List.length (history (this coffeeBrewing)) ->
      aligned (run undo coffeeBrewing))
  /\ (forall (now eventId : string) (input : option json) (w' : World),
         aligned coffeeBrewing ->
         send sampleActions now eventId input coffeeBrewing = (Normal STrue, w') ->
         aligned w').
Proof.
  apply (fields_agree_with_tail sampleActions coffeeBrewing).
  unfold coffeeBrewing, coffeeLoaded, loaded.
  apply reach_send, reach_load, reach_subscribe, reach_new.
Defined.

(** X12. When the fields agree with the tail of the history, [undo] right
    after a [send] that answered [true] also brings [lastEventId] back to
    what it was before the [send], unless that was the string
    ["Initial State"]. *)
Theorem undo_restores_lastEventId
    (evalAction : interpreter)
    (now eventId : string) (input : option json) (w w1 : World) :
  reachable evalAction w ->
  aligned w ->
  send evalAction now eventId input w = (Normal STrue, w1) ->
  lastEventId (this w) <> Some "Initial State" ->
  lastEventId (this (run undo w1)) = lastEventId (this w).
Proof.
  intros Hr [hs [en [Hh [_ [_ [_ Hlast]]]]]] Hs Hne.
  pose proof (reachable_consistent _ _ Hr) as Hc.
  assert (Hc1 : consistent w1).
  { replace w1 with (run (send evalAction now eventId input) w)
      by (unfold run; now rewrite Hs).
    now apply consistent_send. }
  destruct (send_true_extends _ _ _ _ _ _ Hs)
    as [W1 [_ [_ [_ [top [Hh1 _]]]]]].
  assert (Hh1' : history (this w1) = (hs ++ [en; top])%list)
    by (rewrite Hh1, Hh, <- app_assoc; reflexivity).
  destruct (undo_run w1 hs en top Hh1' W1 (restored_json _ _ _ _ Hc1 Hh1'))
    as [ps Hu].
  unfold run. rewrite Hu. cbn [snd afterUndo this lastEventId].
  destruct Hlast as [Hl1|[Hl1 Hl2]].
  - rewrite Hl1 in Hne |- *.
    destruct (String.eqb_spec (event en) "Initial State") as [Eq|_];
      [|reflexivity].
    elim Hne. now rewrite Eq.
  - rewrite Hl1, Hl2. reflexivity.
Qed.

Lemma undo_restores_lastEventId_witness :
  lastEventId (this (run undo (run (send sampleActions "10:00:02" "FINISH" None)
                                   coffeeBrewing)))
  = lastEventId (this coffeeBrewing).
Proof.
  apply (undo_restores_lastEventId sampleActions "10:00:02" "FINISH" None
           coffeeBrewing).
  - exact coffeeBrewing_reachable.
  - exact coffeeBrewing_aligned.
  - vm_compute. reflexivity.
  - vm_compute. discriminate.
Defined.

(** Without that agreement it does not. The [send] of the knotting machine
    throws while recording the input, leaving [lastEventId] at [BREW] with
    the history at its first entry; after the next [send] and its [undo],
    [lastEventId] is [null]. *)
Lemma lastEventId_lost_after_failed_record :
  reachable sampleActions knottingBrewing
  /\ lastEventId (this knottingBrewing) = Some "BREW"
  /\ List.length (history (this knottingBrewing)) = 1
  /\ exists w1,
       send sampleActions "10:00:02" "FINISH" None knottingBrewing
       = (Normal STrue, w1)
       /\ lastEventId (this (run undo w1)) = None.
Proof.
  split; [|split; [|split]].
  - unfold knottingBrewing, loaded.
    apply reachable_send, reach_load, reach_subscribe, reach_new.
  - vm_compute. reflexivity.
  - vm_compute. reflexivity.
  - eexists. split; [vm_compute; reflexivity|]. vm_compute. reflexivity.
Qed.

(** X13. An event listed in [availableEvents] of the projection is one
    the current state defines: [send] with it finds its transition and
    never answers [false]. *)
Theorem available_events_accepted
    (evalAction : interpreter)
    (now eventId : string) (input : option json) (w : World) (p : Projection)
    (events : list (string * TransitionDef)) :
  result getState w = Normal p ->
  p_availableEvents p = Some events ->
  In eventId (keys events) ->
  exists t : TransitionDef,
    own events eventId = Some t
    /\ result (lookupTransition eventId) w = Normal (Own t)
    /\ result (send evalAction now eventId input) w <> Normal SFalse.
Proof.
  intros Hg He Hin. unfold result in Hg. rewrite getState_run in Hg.
  cbn [fst] in Hg. pose proof (projection_events _ _ Hg) as P.
  destruct (In_keys_own _ _ Hin) as [t Ht].
  assert (Hl : result (lookupTransition eventId) w = Normal (Own t)).
  { destruct (config (this w)) as [c|] eqn:Hc.
    - destruct P as [sts [Hs [_ Ha]]]. rewrite He in Ha.
      unfold result, lookupTransition. rewrite bind_getThis, Hc, bind_ret, Hs.
      unfold index at 1. rewrite bind_ret.
      destruct (getProp sts (toPropertyKey (currentStateId (this w))))
        as [data|name|]; [|discriminate|].
      + rewrite <- Ha. unfold index, ret, getProp. cbn [fst]. now rewrite Ht.
      + injection Ha as ->. destruct Hin.
    - rewrite He in P. injection P as ->. destruct Hin. }
  exists t. split; [exact Ht|]. split; [exact Hl|].
  apply (send_found_not_false evalAction now eventId input w (Own t));
    [exact Hl|discriminate].
Qed.

Lemma available_events_accepted_witness :
  exists t : TransitionDef,
    own [("BREW", mkTransition (Some "brewing") None (Some "context.water -= 10"))]
        "BREW" = Some t
    /\ result (lookupTransition "BREW") coffeeLoaded = Normal (Own t)
    /\ result (send sampleActions "10:00:01" "BREW" None) coffeeLoaded
       <> Normal SFalse.
Proof.
  assert (G : exists p, result getState coffeeLoaded = Normal p
                        /\ p_availableEvents p
                           = Some [("BREW", mkTransition (Some "brewing") None
                                              (Some "context.water -= 10"))]).
  { eexists. split; [vm_compute; reflexivity|reflexivity]. }
  destruct G as [p [Hp He]].
  apply (available_events_accepted sampleActions "10:00:01" "BREW" None
           coffeeLoaded p _ Hp He).
  left. reflexivity.
Defined.

(** ** The diagram after a move *)

(** X14. Without a previous state that is a string, or without a last
    event (right after [load] or [reset], and after [undo] back to the
    first entry), the diagram carries no style directive. *)
Theorem no_highlight_without_previous (w : World) (c : Config)
    (sts : list (string * StateDef)) :
  config (this w) = Some c ->
  states c = Some sts ->
  (forall s, previousStateId (this w) <> Id s) \/ lastEventId (this w) = None ->
  generateMermaid w = (Normal (diagramBody (this w) sts), w).
Proof.
  intros Hc Hs Hno. pose proof (generateMermaid_shape w c sts Hc Hs) as G.
  cbv zeta in G. rewrite scan_inactive in G; [exact G|].
  intros x _. now apply isActive_without_previous.
Qed.

Lemma no_highlight_without_previous_witness :
  generateMermaid coffeeLoaded
  = (Normal (diagramBody (this coffeeLoaded)
               (match states coffeeMachine with Some sts => sts | None => [] end)),
     coffeeLoaded).
Proof.
  apply (no_highlight_without_previous coffeeLoaded coffeeMachine).
  - vm_compute. reflexivity.
  - reflexivity.
  - right. vm_compute. reflexivity.
Defined.

(** X15. After a [send] that took a transition the current state defines,
    the diagram ends with the style directive for that very edge: the
    decimal numeral it carries is the position of the edge from the state
    the engine left, under the event sent, in the enumeration of the edges
    in the order of [Object.entries]. *)
Theorem send_highlights_edge_taken
    (evalAction : interpreter)
    (now eventId : string) (input : option json) (w w' : World) (c : Config)
    (sts : list (string * StateDef)) (s : string) (data : StateDef)
    (transitions : list (string * TransitionDef)) (t : TransitionDef) :
  config (this w) = Some c ->
  states c = Some sts ->
  uniqueKeys sts ->
  currentStateId (this w) = Id s ->
  own sts s = Some data ->
  on data = Some transitions ->
  own transitions eventId = Some t ->
  send evalAction now eventId input w = (Normal STrue, w') ->
  exists k,
    nth_error (edgesOf sts) k = Some (s, eventId, t)
    /\ numberOf (numeral k) = Some (Z.of_nat k)
    /\ generateMermaid w'
       = (Normal (diagramBody (this w') sts
                  ++ "    linkStyle " ++ numeral k
                  ++ " stroke:#6366f1,stroke-width:4px,color:#6366f1"
                  ++ lineBreak), w').
Proof.
  intros Hc Hs Hu Hcur Hd Ho Ht Hsend.
  destruct (send_true_extends _ _ _ _ _ _ Hsend) as [_ [L [P _]]].
  destruct (In_nth_error _ _ (edge_of_own sts s eventId data transitions t Hd Ho Ht))
    as [k Hk].
  exists k. split; [exact Hk|]. split; [apply numeral_number|].
  assert (Hc' : config (this w') = Some c).
  { pose proof (send_keeps evalAction now eventId input w) as [K _].
    unfold run in K. rewrite Hsend in K. cbn [snd] in K. now rewrite K. }
  assert (Ha : isActive (this w') (s, eventId, t) = true).
  { unfold isActive. cbn [fst snd]. rewrite P, L, Hcur.
    cbn [strictEq strictEqOpt]. now rewrite !String.eqb_refl. }
  pose proof (generateMermaid_shape w' c sts Hc' Hs) as G. cbv zeta in G.
  rewrite (highlight_unique (this w') sts k _ Hu Hk Ha) in G.
  rewrite linkStyle_directive in G.
  destruct (Z.eqb_spec (Z.of_nat k) (-1)) as [A|_]; [lia|exact G].
Qed.

Lemma send_highlights_edge_taken_witness :
  exists k,
    nth_error (edgesOf [ ("b", mkState None
                            (Some [("X", mkTransition (Some "1") None None)]));
                         ("1", mkState None
                            (Some [("Y", mkTransition (Some "b") None None)])) ]) k
    = Some ("b", "X", mkTransition (Some "1") None None)
    /\ numberOf (numeral k) = Some (Z.of_nat k)
    /\ generateMermaid numberedTaken
       = (Normal (diagramBody (this numberedTaken)
                    [ ("b", mkState None
                         (Some [("X", mkTransition (Some "1") None None)]));
                      ("1", mkState None
                         (Some [("Y", mkTransition (Some "b") None None)])) ]
                  ++ "    linkStyle " ++ numeral k
                  ++ " stroke:#6366f1,stroke-width:4px,color:#6366f1"
                  ++ lineBreak), numberedTaken).
Proof.
  apply (send_highlights_edge_taken sampleActions "10:00:01" "X" None
           (loaded numberedMachine) numberedTaken numberedMachine _ "b"
           (mkState None (Some [("X", mkTransition (Some "1") None None)]))
           [("X", mkTransition (Some "1") None None)]);
    try (vm_compute; reflexivity).
  exact numberedMachine_uniqueKeys.
Defined.

(** X16. Whatever the definition, even with an edge matching more than
    once in the enumeration, the style directive, when there is one,
    carries the decimal numeral of the index of an edge that exists and
    matches, the last one that does; when no edge matches there is no
    directive. *)
Theorem highlight_is_last_match (w : World) (c : Config)
    (sts : list (string * StateDef)) :
  config (this w) = Some c ->
  states c = Some sts ->
  (generateMermaid w = (Normal (diagramBody (this w) sts), w)
   /\ forall x, In x (edgesOf sts) -> isActive (this w) x = false)
  \/ exists k x,
       nth_error (edgesOf sts) k = Some x
       /\ k < List.length (edgesOf sts)
       /\ isActive (this w) x = true
       /\ (forall j y, k < j -> nth_error (edgesOf sts) j = Some y ->
                       isActive (this w) y = false)
       /\ numberOf (numeral k) = Some (Z.of_nat k)
       /\ generateMermaid w
          = (Normal (diagramBody (this w) sts
                     ++ "    linkStyle " ++ numeral k
                     ++ " stroke:#6366f1,stroke-width:4px,color:#6366f1"
                     ++ lineBreak), w).
Proof.
  intros Hc Hs. pose proof (generateMermaid_shape w c sts Hc Hs) as G.
  cbv zeta in G.
  destruct (scan_last (this w) (edgesOf sts) 0 (-1))
    as [[E Hin]|[k [x [Hk [Hx [Hlater E]]]]]].
  - left. rewrite E in G. split; [exact G|exact Hin].
  - right. exists k, x. split; [exact Hk|]. split.
    + apply nth_error_Some. rewrite Hk. discriminate.
    + split; [exact Hx|]. split; [exact Hlater|].
      split; [apply numeral_number|].
      rewrite E in G. cbn [Z.add] in G. rewrite linkStyle_directive in G.
      destruct (Z.eqb_spec (Z.of_nat k) (-1)) as [A|_]; [lia|exact G].
Qed.

Lemma highlight_is_last_match_witness :
  let sts := match states coffeeMachine with Some sts => sts | None => [] end in
  (generateMermaid coffeeBrewing = (Normal (diagramBody (this coffeeBrewing) sts),
                                    coffeeBrewing)
   /\ forall x, In x (edgesOf sts) -> isActive (this coffeeBrewing) x = false)
  \/ exists k x,
       nth_error (edgesOf sts) k = Some x
       /\ k < List.length (edgesOf sts)
       /\ isActive (this coffeeBrewing) x = true
       /\ (forall j y, k < j -> nth_error (edgesOf sts) j = Some y ->
                       isActive (this coffeeBrewing) y = false)
       /\ numberOf (numeral k) = Some (Z.of_nat k)
       /\ generateMermaid coffeeBrewing
          = (Normal (diagramBody (this coffeeBrewing) sts
                     ++ "    linkStyle " ++ numeral k
                     ++ " stroke:#6366f1,stroke-width:4px,color:#6366f1"
                     ++ lineBreak), coffeeBrewing).
Proof.
  cbv zeta.
  apply (highlight_is_last_match coffeeBrewing coffeeMachine).
  - vm_compute. reflexivity.
  - reflexivity.
Defined.

(** ** Writes into the store *)






(** The case left out: the marking action writes into the snapshot it is
    handed as input. *)
Lemma action_writes_into_handed_snapshot :
  exists first : HistoryEntry,
    history (this (loaded markingMachine)) = [first]
    /\ deref (heap (loaded markingMachine)) (entryInput first) = VObj []
    /\ deref (heap (run (sendWith sampleActions "10:00:01" "BREW"
                                  (Held (entryInput first)))
                        (loaded markingMachine)))
             (entryInput first)
       = VObj [("seen", VBool true)].
Proof.
  eexists. split; [vm_compute; reflexivity|]. split; vm_compute; reflexivity.
Qed.

(** ** Undoing everything *)

Lemma startOf_observe (h : store) (hist : list HistoryEntry) :
  startOf (map (observeEntry h) hist)
  = match hist with
    | [] => EmptyString
    | en :: _ => timestamp en
    end.
Proof. destruct hist; reflexivity. Qed.

Lemma undoTimes_initial (n : nat) :
  forall (w : World) (c : Config),
    consistent w ->
    config (this w) = Some c ->
    List.length (history (this w)) = S (S n) ->
    observe (undoTimes (S n) w)
    = initialObs c (startOf (o_history (observe w))).
Proof.
  induction n as [|n IH]; intros w c Hc Hcfg Hlen.
  - destruct (cons_rooted _ Hc c Hcfg) as [first [rest [Hh [He [Hs [Dc Di]]]]]].
    rewrite Hh in Hlen. destruct rest as [|top [|x rest]]; try discriminate Hlen.
    assert (Hh' : history (this w) = ([] ++ [first; top])%list) by exact Hh.
    destruct (undo_run w [] first top Hh' (cons_loaded _ Hc)
                (restored_json _ _ _ _ Hc Hh')) as [ps E].
    cbn [undoTimes]. unfold run. rewrite E. cbn [snd].
    pose proof (cons_bound _ Hc) as Hb. unfold objects, snapshots in Hb.
    rewrite Hh in Hb. cbn [flat_map entryObjects app] in Hb.
    apply Forall_cons_iff in Hb. destruct Hb as [_ Hb].
    apply Forall_cons_iff in Hb. destruct Hb as [B1 Hb].
    apply Forall_cons_iff in Hb. destruct Hb as [B2 _].
    unfold observe, initialObs.
    cbn [afterUndo this heap currentStateId previousStateId lastEventId context
         history app map o_history].
    rewrite Hh. cbn [map startOf o_timestamp observeEntry timestamp].
    rewrite He, Hs. cbn [String.eqb Ascii.eqb Bool.eqb]. unfold stateBelow.
    cbn [rev]. f_equal.
    + rewrite deref_new, <- Dc. reflexivity.
    + f_equal. unfold observeEntry. rewrite He, Hs, !deref_old by assumption.
      now rewrite Dc, Di.
  - destruct (history_two_or_short (history (this w))) as [H|[hs [r [t H]]]];
      [lia|].
    destruct (undo_run w hs r t H (cons_loaded _ Hc) (restored_json _ _ _ _ Hc H))
      as [ps E].
    change (undoTimes (S (S n)) w) with (undoTimes (S n) (run undo w)).
    unfold run. rewrite E. cbn [snd].
    rewrite (IH (afterUndo w hs r ps) c).
    + f_equal. cbn [observe o_history afterUndo this heap history].
      rewrite !startOf_observe, H.
      rewrite H, length_app in Hlen. cbn [List.length] in Hlen.
      destruct hs as [|h0 hs0]; [cbn in Hlen; lia|reflexivity].
    + eapply consistent_afterUndo; eassumption.
    + exact Hcfg.
    + cbn [afterUndo this history]. rewrite H, !length_app in *.
      cbn [List.length] in *. lia.
Qed.

(** X19. Undoing every step is like loading again: when the history has
    two entries or more, after as many [undo] as it has entries but one,
    what is observed is what was observed right after the [load] that
    started the history, whatever state the fields were in. *)
Theorem undo_all_is_initial
    (evalAction : interpreter) (c : Config)
    (w : World) :
  reachable evalAction w ->
  config (this w) = Some c ->
  2 <= List.length (history (this w)) ->
  observe (undoTimes (List.length (history (this w)) - 1) w)
  = initialObs c (startOf (o_history (observe w))).
Proof.
  intros Hr Hcfg H2. pose proof (reachable_consistent _ _ Hr) as Hc.
  destruct (List.length (history (this w))) as [|[|n]] eqn:Hlen; try lia.
  replace (S (S n) - 1) with (S n) by lia.
  now apply undoTimes_initial.
Qed.

Lemma undo_all_is_initial_witness :
  observe (undoTimes (List.length (history (this coffeeBrewing)) - 1) coffeeBrewing)
  = initialObs coffeeMachine (startOf (o_history (observe coffeeBrewing))).
Proof.
  apply (undo_all_is_initial sampleActions coffeeMachine coffeeBrewing).
  - exact coffeeBrewing_reachable.
  - vm_compute. reflexivity.
  - vm_compute. lia.
Defined.

(** With one entry there is nothing to undo: after the [send] of the
    forgetful machine, which threw while recording, the engine stays as
    that [send] left it. *)
Lemma nothing_to_undo_after_failed_record :
  let w := run (send sampleActions "10:00:01" "BREW" None)
               (loaded forgetfulMachine) in
  List.length (history (this w)) = 1
  /\ undo w = (Normal tt, w)
  /\ currentStateId (this w) = Id "brewing"
  /\ deref (heap w) (context (this w)) = VUndefined.
Proof. cbv zeta. repeat split; vm_compute; reflexivity. Qed.

(** ** States that cannot be left *)

(** X20. When [currentStateId] is not a key of [states], every [send]
    throws a [TypeError] and changes nothing, whatever the event, while
    [getState] still returns. If [currentStateId] is not the name of a
    member of [Object.prototype] either, [send] fails reading [on] of
    [undefined] and the projection has no data and no available events; if
    it is such a name, [send] fails reading the event of [undefined],
    and the projection has that member for data and [undefined] for the
    available events. In a state defined without an [on] mapping, [send]
    fails in this second way as well, and the projection has the
    state's data and [undefined] for the available events. *)
Theorem send_throws_without_on
    (evalAction : interpreter) (w : World)
    (c : Config) (sts : list (string * StateDef)) :
  config (this w) = Some c ->
  states c = Some sts ->
  (~ In (toPropertyKey (currentStateId (this w))) (keys sts) ->
   inherited (toPropertyKey (currentStateId (this w))) = false ->
   (forall now eventId input,
       send evalAction now eventId input w
       = (Throw (TypeError "Cannot read properties of undefined (reading 'on')"),
          w))
   /\ exists p, getState w = (Normal p, w)
                /\ p_data p = Some Absent /\ p_availableEvents p = Some [])
  /\ (~ In (toPropertyKey (currentStateId (this w))) (keys sts) ->
      inherited (toPropertyKey (currentStateId (this w))) = true ->
      (forall now eventId input,
          send evalAction now eventId input w
          = (Throw (TypeError ("Cannot read properties of undefined (reading '"
                               ++ eventId ++ "')")), w))
      /\ exists p, getState w = (Normal p, w)
                   /\ p_data p
                      = Some (Inherited (toPropertyKey (currentStateId (this w))))
                   /\ p_availableEvents p = None)
  /\ (forall data,
         getProp sts (toPropertyKey (currentStateId (this w))) = Own data ->
         on data = None ->
         (forall now eventId input,
             send evalAction now eventId input w
             = (Throw (TypeError ("Cannot read properties of undefined (reading '"
                                  ++ eventId ++ "')")), w))
         /\ exists p, getState w = (Normal p, w)
                      /\ p_data p = Some (Own data)
                      /\ p_availableEvents p = None).
Proof.
  intros Hc Hs.
  assert (Hl : wellLoaded (this w)).
  { unfold wellLoaded. rewrite Hc, Hs. discriminate. }
  destruct (projectionOf_wellLoaded _ Hl) as [p [Hp _]].
  pose proof (projection_events _ _ Hp) as P. rewrite Hc in P.
  destruct P as [sts' [Hs' [Hd Ha]]]. rewrite Hs in Hs'. injection Hs' as <-.
  assert (L : forall eventId,
             result (lookupTransition eventId) w
             = match getProp sts (toPropertyKey (currentStateId (this w))) with
               | Own data => result (index (on data) eventId) w
               | Inherited _ =>
                   Throw (TypeError
                            ("Cannot read properties of undefined (reading '"
                             ++ eventId ++ "')"))
               | Absent =>
                   Throw (TypeError
                            "Cannot read properties of undefined (reading 'on')")
               end).
  { intros eventId. unfold result, lookupTransition.
    rewrite bind_getThis, Hc, bind_ret, Hs. unfold index at 1.
    rewrite bind_ret.
    destruct (getProp sts (toPropertyKey (currentStateId (this w)))); reflexivity. }
  split; [|split].
  - intros Hk Hi.
    assert (Hab : getProp sts (toPropertyKey (currentStateId (this w))) = Absent)
      by (apply getProp_Absent; now split).
    split.
    + intros now eventId input. apply send_lookup_throws. now rewrite L, Hab.
    + exists p. rewrite getState_run, Hp. rewrite Hab in Hd, Ha. now repeat split.
  - intros Hk Hi.
    assert (Hin : getProp sts (toPropertyKey (currentStateId (this w)))
                  = Inherited (toPropertyKey (currentStateId (this w)))).
    { unfold getProp. apply own_None_not_key in Hk. now rewrite Hk, Hi. }
    split.
    + intros now eventId input. apply send_lookup_throws. now rewrite L, Hin.
    + exists p. rewrite getState_run, Hp. rewrite Hin in Hd, Ha. now repeat split.
  - intros data Hown Hon. split.
    + intros now eventId input. apply send_lookup_throws.
      rewrite L, Hown, Hon. reflexivity.
    + exists p. rewrite getState_run, Hp. rewrite Hown in Hd, Ha.
      rewrite Hon in Ha. now repeat split.
Qed.

Lemma send_throws_without_on_witness :
  let w := run (send sampleActions "10:00:01" "GO" None) (loaded danglingMachine) in
  (forall now eventId input,
      send sampleActions now eventId input w
      = (Throw (TypeError "Cannot read properties of undefined (reading 'on')"),
         w))
  /\ exists p, getState w = (Normal p, w)
               /\ p_data p = Some Absent /\ p_availableEvents p = Some [].
Proof.
  cbv zeta.
  apply (send_throws_without_on sampleActions
           (run (send sampleActions "10:00:01" "GO" None) (loaded danglingMachine))
           danglingMachine
           [ ("a", mkState None
                (Some [("GO", mkTransition (Some "nowhere") None None)])) ]).
  - vm_compute. reflexivity.
  - reflexivity.
  - vm_compute. intros [H|[]]. discriminate H.
  - vm_compute. reflexivity.
Defined.

(** The same on a state that names a member of [Object.prototype]: after
    [toString] was taken for an event of a machine whose transition leads
    to a state of that name. *)
Lemma send_in_inherited_state_throws :
  let c := mkConfig None (Some "a") None
             (Some [ ("a", mkState None
                        (Some [("GO", mkTransition (Some "toString") None None)])) ]) in
  let w := run (send sampleActions "10:00:01" "GO" None) (loaded c) in
  currentStateId (this w) = Id "toString"
  /\ send sampleActions "10:00:02" "GO" None w
     = (Throw (TypeError "Cannot read properties of undefined (reading 'GO')"), w)
  /\ exists p, getState w = (Normal p, w)
               /\ p_data p = Some (Inherited "toString")
               /\ p_availableEvents p = None.
Proof.
  cbv zeta. split; [vm_compute; reflexivity|]. split; [vm_compute; reflexivity|].
  eexists. split; [vm_compute; reflexivity|]. split; reflexivity.
Qed.

(** ** [replay] item by item *)




(** An event that is refused does not stop a replay, and a [send] that
    throws does: on the coffee machine the item after the unknown event is
    sent, and on the dangling machine the second [GO] throws and the third
    item is never sent. *)
Lemma replay_after_refusal_and_throw :
  currentStateId
    (this (run (replay sampleActions "10:00:05"
                  [mkItem "10:00:06" "NOPE" None; mkItem "10:00:07" "BREW" None])
               coffeeLoaded))
  = Id "brewing"
  /\ exists w',
       replay sampleActions "10:00:05"
         [mkItem "10:00:06" "GO" None; mkItem "10:00:07" "GO" None;
          mkItem "10:00:08" "GO" None]
         (loaded danglingMachine)
       = (Throw (TypeError "Cannot read properties of undefined (reading 'on')"),
          w')
       /\ List.length (history (this w')) = 2.
Proof.
  split; [vm_compute; reflexivity|].
  eexists. split; [vm_compute; reflexivity|]. reflexivity.
Qed.

(** ** The projection *)

Lemma projection_mermaid (e : Engine) (p : Projection) :
  projectionOf e = Normal p -> mermaidOf e = Normal (p_mermaid p).
Proof.
  unfold projectionOf, result, getState. rewrite bind_getThis. cbn [this].
  destruct (config e) as [c|]; [destruct (states c) as [sts|]|];
    unfold index, bind, ret, throw; try discriminate;
    rewrite generateMermaid_run; cbn [fst snd];
    destruct (mermaidOf _); try discriminate; intros E; injection E as <-;
    reflexivity.
Qed.

(** X22. In every world the engine can be in, [getState] returns and
    changes nothing. The projection carries [currentStateId], the live
    context object itself, the history of the engine and the text
    [generateMermaid] returns; without a definition its data is [null] and
    its available events are the empty object; with one, its data is
    [states[currentStateId]] and, when that is a state of the definition,
    its available events are the [on] of that state. *)
Theorem getState_projection (evalAction : interpreter) (w : World) :
  reachable evalAction w ->
  exists p : Projection,
    getState w = (Normal p, w)
    /\ p_id p = currentStateId (this w)
    /\ p_context p = context (this w)
    /\ p_history p = history (this w)
    /\ generateMermaid w = (Normal (p_mermaid p), w)
    /\ (config (this w) = None ->
        p_data p = None /\ p_availableEvents p = Some [])
    /\ (forall (c : Config) (sts : list (string * StateDef)),
           config (this w) = Some c ->
           states c = Some sts ->
           p_data p = Some (getProp sts (toPropertyKey (currentStateId (this w))))
           /\ forall data : StateDef,
                own sts (toPropertyKey (currentStateId (this w))) = Some data ->
                p_availableEvents p = on data).
Proof.
  intros Hr. pose proof (reachable_consistent _ _ Hr) as Hc.
  destruct (projectionOf_wellLoaded _ (cons_loaded _ Hc)) as [p [Hp [Hi [Hx Hh]]]].
  pose proof (projection_mermaid _ _ Hp) as Hm.
  pose proof (projection_events _ _ Hp) as He.
  exists p. split; [now rewrite getState_run, Hp|].
  split; [exact Hi|]. split; [exact Hx|]. split; [exact Hh|].
  split; [now rewrite generateMermaid_run, Hm|]. split.
  - intros Hn. rewrite Hn in He. split; [|exact He].
    unfold projectionOf, result, getState in Hp. rewrite bind_getThis in Hp.
    cbn [this] in Hp. rewrite Hn in Hp. unfold bind, ret in Hp.
    rewrite generateMermaid_run in Hp. cbn [fst snd] in Hp.
    destruct (mermaidOf _); [|discriminate Hp]. injection Hp as <-. reflexivity.
  - intros c sts Hcfg Hs. rewrite Hcfg in He.
    destruct He as [sts' [Hs' [Hd Ha]]]. rewrite Hs in Hs'. injection Hs' as <-.
    split; [exact Hd|]. intros data Ho. rewrite Ha. unfold getProp. now rewrite Ho.
Qed.

Lemma getState_projection_witness :
  exists p : Projection,
    getState coffeeBrewing = (Normal p, coffeeBrewing)
    /\ p_id p = currentStateId (this coffeeBrewing)
    /\ p_context p = context (this coffeeBrewing)
    /\ p_history p = history (this coffeeBrewing)
    /\ generateMermaid coffeeBrewing = (Normal (p_mermaid p), coffeeBrewing)
    /\ (config (this coffeeBrewing) = None ->
        p_data p = None /\ p_availableEvents p = Some [])
    /\ (forall (c : Config) (sts : list (string * StateDef)),
           config (this coffeeBrewing) = Some c ->
           states c = Some sts ->
           p_data p
           = Some (getProp sts (toPropertyKey (currentStateId (this coffeeBrewing))))
           /\ forall data : StateDef,
                own sts (toPropertyKey (currentStateId (this coffeeBrewing)))
                = Some data ->
                p_availableEvents p = on data).
Proof.
  apply (getState_projection sampleActions coffeeBrewing).
  exact coffeeBrewing_reachable.
Defined.

(** The projection of the brewing coffee machine offers [FINISH]. *)
Lemma coffeeBrewing_offers_finish :
  exists p : Projection,
    getState coffeeBrewing = (Normal p, coffeeBrewing)
    /\ p_id p = Id "brewing"
    /\ option_map keys (p_availableEvents p) = Some ["FINISH"].
Proof. eexists. split; [vm_compute; reflexivity|]. split; reflexivity. Qed.

(** ** The length of the history *)



(** ** A new engine *)

(** X24. What the constructor leaves: no definition, identifiers at
    [null], an empty object for context, no history, no subscriber. On such
    an engine [getState] returns a projection without data, with the empty
    object for available events and the empty text for diagram;
    [generateMermaid] returns the empty text; [undo], [reset] and [load]
    without a definition return and change nothing. *)
Theorem new_engine_is_empty :
  config (this newEngine) = None
  /\ currentStateId (this newEngine) = Null
  /\ previousStateId (this newEngine) = Null
  /\ lastEventId (this newEngine) = None
  /\ deref (heap newEngine) (context (this newEngine)) = VObj []
  /\ history (this newEngine) = []
  /\ listeners (this newEngine) = []
  /\ getState newEngine
     = (Normal (mkProjection Null None (context (this newEngine)) (Some [])
                             EmptyString []), newEngine)
  /\ generateMermaid newEngine = (Normal EmptyString, newEngine)
  /\ undo newEngine = (Normal tt, newEngine)
  /\ (forall now : string, reset now newEngine = (Normal tt, newEngine))
  /\ (forall now : string, load now None newEngine = (Normal tt, newEngine)).
Proof. repeat split. Qed.
